(** * claude-commit: message extraction and action dispatch

    A shallow embedding of [src/claude_commit/main.py]: the string
    primitives the program relies on, the extraction loop of
    [generate_commit_message] and the dispatcher in [main], followed by
    the properties stated for them.

    Text is modelled as a list of characters with code points below 256
    (type [ascii]); on that range [isspace] and [lower_char] are
    Python's [str.isspace] and [str.lower]. *)

From Stdlib Require Import String List Ascii Bool Arith NArith Lia.
Import ListNotations.

Abbreviation length := List.length.

Set Implicit Arguments.

(** ** Python string primitives *)

Module Py.

Definition str := list ascii.

(** A literal of the source text. *)
Definition lit (s : string) : str := list_ascii_of_string s.
Arguments lit s%_string.

(** Truthiness of a string: [if s:]. *)
Definition truthy (s : str) : bool :=
  match s with [] => false | _ :: _ => true end.

(** [c.isspace()]: TAB..CR, FS..US, space, NEL and NBSP. *)
Definition isspace (c : ascii) : bool :=
  let n := nat_of_ascii c in
  ((9 <=? n) && (n <=? 13)) || ((28 <=? n) && (n <=? 32))
  || (n =? 133) || (n =? 160).

(** [c.lower()]: A..Z and the capital letters of Latin-1. *)
Definition lower_char (c : ascii) : ascii :=
  let n := nat_of_ascii c in
  if ((65 <=? n) && (n <=? 90))
     || ((192 <=? n) && (n <=? 222) && negb (n =? 215))
  then ascii_of_nat (n + 32) else c.

Definition lower (s : str) : str := map lower_char s.

Fixpoint lstrip (s : str) : str :=
  match s with
  | [] => []
  | c :: s' => if isspace c then lstrip s' else s
  end.

Definition rstrip (s : str) : str := rev (lstrip (rev s)).

Definition strip (s : str) : str := rstrip (lstrip s).

(** [s.startswith(p)] *)
Fixpoint startswith (p s : str) : bool :=
  match p, s with
  | [], _ => true
  | _ :: _, [] => false
  | a :: p', b :: s' => Ascii.eqb a b && startswith p' s'
  end.

(** [sub in s] *)
Fixpoint contains (sub s : str) : bool :=
  startswith sub s
  || match s with [] => false | _ :: s' => contains sub s' end.

(** The cut made by [s.split(sep, 1)] when [sep] occurs: the text before
    the leftmost occurrence and the text after it. *)
Fixpoint partition (sep s : str) : option (str * str) :=
  if startswith sep s then Some ([], skipn (length sep) s)
  else match s with
       | [] => None
       | c :: s' =>
           match partition sep s' with
           | Some (before, after) => Some (c :: before, after)
           | None => None
           end
       end.

(** [s.split(sep, 1)] *)
Definition split1 (sep s : str) : list str :=
  match partition sep s with
  | Some (before, after) => [before; after]
  | None => [s]
  end.

(** [s.split(c)] for a one-character separator. *)
Fixpoint split (sep : ascii) (s : str) : list str :=
  match s with
  | [] => [[]]
  | c :: s' =>
      if Ascii.eqb c sep then [] :: split sep s'
      else match split sep s' with
           | l :: ls => (c :: l) :: ls
           | [] => [[c]]
           end
  end.

(** [sep.join(ls)] *)
Fixpoint join (sep : str) (ls : list str) : str :=
  match ls with
  | [] => []
  | l :: ls' =>
      match ls' with
      | [] => l
      | _ :: _ => l ++ sep ++ join sep ls'
      end
  end.

(** [s.replace(old, new)] for a non-empty [old]: occurrences are taken
    left to right without overlap; [skip] counts the characters of the
    occurrence just replaced that are still to be passed over. *)
Fixpoint replace_from (old new : str) (skip : nat) (s : str) : str :=
  match s with
  | [] => []
  | c :: s' =>
      match skip with
      | S k => replace_from old new k s'
      | O =>
          if startswith old s
          then new ++ replace_from old new (length old - 1) s'
          else c :: replace_from old new 0 s'
      end
  end.

Definition replace (old new s : str) : str := replace_from old new 0 s.

(** [a == b] *)
Fixpoint str_eqb (a b : str) : bool :=
  match a, b with
  | [], [] => true
  | x :: a', y :: b' => Ascii.eqb x y && str_eqb a' b'
  | _, _ => false
  end.

(** A string made of whitespace only (the empty one included). *)
Definition blank (s : str) : bool := forallb isspace s.

Definition nl : ascii := "010"%char.
Definition NL : str := [nl].

End Py.

Import Py.

(** ** The agent session, as [generate_commit_message] consumes it *)

Module Agent.

Inductive ContentBlock :=
| TextBlock (text : str)
| ToolUseBlock
| ToolResultBlock.

(** Messages yielded by [query]; [OtherMessage] stands for the user and
    system messages, which the loop passes over. *)
Inductive Message :=
| AssistantMessage (content : list ContentBlock)
| ResultMessage (is_error : bool)
| OtherMessage.

(** What can be raised while the stream is iterated. *)
Inductive Raised :=
| CLINotFoundError
| ProcessError
| OtherException
| KeyboardInterrupt.

(** One run of the agent: the messages it yields, then either the end of
    the stream or an exception. *)
Record Session := { messages : list Message; ending : option Raised }.

End Agent.

Import Agent.

(** ** [main.py] *)

Module Commit.

Definition MARKER : str := lit "COMMIT_MESSAGE:".

Definition FILLERS : list str :=
  [lit "let me"; lit "i'll"; lit "i will"; lit "now i"; lit "first";
   lit "i can see"].

Definition FENCE : str := lit "```".

(** Lines 166-173: the fallback loop over [reversed(all_text)];
    [commit_message] is left as it was when no entry is taken. *)
Fixpoint fallback (commit_message : option str) (texts : list str)
  : option str :=
  match texts with
  | [] => commit_message
  | text :: rest =>
      let text := strip text in
      if truthy text
         && negb (existsb (fun prefix => startswith prefix (lower text))
                    FILLERS)
      then Some text
      else fallback commit_message rest
  end.

(** Lines 155-173: the candidate chosen from the log. *)
Definition candidate (commit_message : option str) (all_text : list str)
  : option str :=
  let full_response := join NL all_text in
  if contains MARKER full_response then
    let parts := split1 MARKER full_response in
    match nth_error parts 1 with
    | Some after => Some (strip after)
    | None => commit_message
    end
  else fallback commit_message (rev all_text).

(** Lines 181-186: one turn of the loop over the lines. *)
Definition clean_line (st : bool * list str) (line : str)
  : bool * list str :=
  let (in_code_block, cleaned_lines) := st in
  if startswith FENCE (strip line) then (negb in_code_block, cleaned_lines)
  else if negb in_code_block && truthy (strip line)
       then (in_code_block, cleaned_lines ++ [rstrip line])
       else (in_code_block, cleaned_lines).

(** Lines 177-188: the markdown cleanup of a candidate. *)
Definition clean_markdown (commit_message : str) : str :=
  let lines := split nl commit_message in
  let cleaned_lines := snd (fold_left clean_line lines (false, [])) in
  strip (join NL cleaned_lines).

(** Lines 176-188: cleanup runs only on a truthy candidate. *)
Definition cleanup (commit_message : option str) : option str :=
  match commit_message with
  | Some m => if truthy m then Some (clean_markdown m) else Some m
  | None => None
  end.

(** Lines 153-188: what a successful [ResultMessage] does to
    [commit_message]. *)
Definition extract (commit_message : option str) (all_text : list str)
  : option str :=
  cleanup (candidate commit_message all_text).

Record LoopState := {
  commit_message : option str;
  all_text : list str
}.

(** Lines 140-142. *)
Definition on_block (all_text : list str) (block : ContentBlock)
  : list str :=
  match block with
  | TextBlock text => all_text ++ [strip text]
  | _ => all_text
  end.

(** Lines 137-188: the body of [async for message in query(...)]. *)
Definition on_message (st : LoopState) (message : Message) : LoopState :=
  match message with
  | AssistantMessage content =>
      {| commit_message := commit_message st;
         all_text := fold_left on_block content (all_text st) |}
  | ResultMessage is_error =>
      if is_error then st
      else {| commit_message := extract (commit_message st) (all_text st);
              all_text := all_text st |}
  | OtherMessage => st
  end.

Definition run_loop (ms : list Message) : LoopState :=
  fold_left on_message ms {| commit_message := None; all_text := [] |}.

(** What the program does to the outside, one constructor per site. *)
Inductive Effect :=
| ErrCLINotFound
| ErrProcessError
| ErrUnexpected
| ErrInterrupted
| ErrFailedToGenerate
| ShowMessage (m : str)
| PreviewComplete
| Pbcopy (input : str)
| Xclip (input : str)
| Copied
| ErrClipboardUnsupported
| ErrClipboardFailed
| AskConfirm
| CommitCancelled
| GitCommit (m : str)
| Committed
| ErrCommitFailed
| ErrCommitUnexpected
| SuggestCommand (line : str)
| SuggestFlag.

Inductive Outcome :=
| Returned (value : option str)
| Interrupted.

(** Lines 122-207.  The verbose diagnostics are not part of the model;
    the three handlers print to stderr and return [None], a
    [KeyboardInterrupt] is not caught here. *)
Definition generate_commit_message (s : Session) : list Effect * Outcome :=
  match ending s with
  | None => ([], Returned (commit_message (run_loop (messages s))))
  | Some CLINotFoundError => ([ErrCLINotFound], Returned None)
  | Some ProcessError => ([ErrProcessError], Returned None)
  | Some OtherException => ([ErrUnexpected], Returned None)
  | Some KeyboardInterrupt => ([], Interrupted)
  end.

Record Args := {
  all : bool;
  verbose : bool;
  path : option str;
  max_diff_lines : nat;
  commit : bool;
  copy : bool;
  preview : bool
}.

Inductive Platform := Darwin | Linux | OtherPlatform.

Inductive CommitResult := CommitOk | CalledProcessError | CommitRaises.

(** Everything [main] reads from outside: the agent session, the
    platform name, whether the clipboard tool succeeds, the line typed at
    the prompt ([None] when [input] raises) and how [git commit] ends. *)
Record World := {
  session : Session;
  system : Platform;
  clipboard_ok : bool;
  response : option str;
  git : CommitResult
}.

(** Lines 311-326. *)
Definition copy_to_clipboard (w : World) (m : str) : list Effect :=
  match system w with
  | Darwin =>
      Pbcopy m :: (if clipboard_ok w then [Copied] else [ErrClipboardFailed])
  | Linux =>
      Xclip m :: (if clipboard_ok w then [Copied] else [ErrClipboardFailed])
  | OtherPlatform => [ErrClipboardUnsupported]
  end.

(** Line 360. *)
Definition escape (m : str) : str := replace (lit "'") (lit "'\''") m.

(** Line 361: the line printed for [escaped_message]. *)
Definition command_line (escaped_message : str) : str :=
  lit "   git commit -m '" ++ escaped_message ++ lit "'".

(** Lines 328-355. *)
Definition do_commit (w : World) (m : str) : list Effect * nat :=
  match response w with
  | None => ([AskConfirm; ErrCommitUnexpected], 1)
  | Some r =>
      if negb (str_eqb (lower r) (lit "y"))
      then ([AskConfirm; CommitCancelled], 0)
      else match git w with
           | CommitOk => ([AskConfirm; GitCommit m; Committed], 0)
           | CalledProcessError =>
               ([AskConfirm; GitCommit m; ErrCommitFailed], 1)
           | CommitRaises =>
               ([AskConfirm; GitCommit m; ErrCommitUnexpected], 1)
           end
  end.

(** Lines 299-362: what [main] does with a message. *)
Definition dispatch (args : Args) (w : World) (m : str)
  : list Effect * nat :=
  if preview args then ([ShowMessage m; PreviewComplete], 0)
  else
    let copied := if copy args then copy_to_clipboard w m else [] in
    if commit args then
      let (out, code) := do_commit w m in
      (ShowMessage m :: copied ++ out, code)
    else
      (ShowMessage m
         :: copied ++ [SuggestCommand (command_line (escape m)); SuggestFlag],
       0).

(** Lines 282-362: the effects of a run and the exit status. *)
Definition main (args : Args) (w : World) : list Effect * nat :=
  let (out, r) := generate_commit_message (session w) in
  match r with
  | Interrupted => (out ++ [ErrInterrupted], 130)
  | Returned value =>
      match value with
      | Some m =>
          if truthy m then
            let (acts, code) := dispatch args w m in (out ++ acts, code)
          else (out ++ [ErrFailedToGenerate], 1)
      | None => (out ++ [ErrFailedToGenerate], 1)
      end
  end.

End Commit.

Import Commit.

(** ** The vocabulary of the stated properties *)

Module Spec.

(** [sub] occurs in [s], cut as [before ++ sub ++ after]. *)
Definition cut_at (sub s before after : str) : Prop :=
  s = before ++ sub ++ after.

Definition occurs (sub s : str) : Prop :=
  exists before after, cut_at sub s before after.

(** The cut at the leftmost occurrence. *)
Definition first_cut (sub s before after : str) : Prop :=
  cut_at sub s before after
  /\ forall b a, cut_at sub s b a -> length before <= length b.

Definition is_prefix (p s : str) : Prop := exists rest, s = p ++ rest.

(** A trimmed entry that opens with a filler phrase, whatever its case. *)
Definition filler (text : str) : Prop :=
  exists p, In p FILLERS /\ is_prefix p (lower text).

(** An entry the fallback may take. *)
Definition meaningful (entry : str) : Prop :=
  strip entry <> [] /\ ~ filler (strip entry).

(** An entry the fallback passes over. *)
Definition skipped (entry : str) : Prop :=
  strip entry = [] \/ filler (strip entry).

(** An entry as the driver stores it. *)
Definition trimmed (entry : str) : Prop := strip entry = entry.

Definition is_fence (line : str) : bool := startswith FENCE (strip line).

(** The lines that survive, [inside] being the fenced-block flag. *)
Fixpoint survivors (inside : bool) (lines : list str) : list str :=
  match lines with
  | [] => []
  | line :: rest =>
      if is_fence line then survivors (negb inside) rest
      else if inside || blank line then survivors inside rest
      else rstrip line :: survivors inside rest
  end.

(** The cleanup in the words of its description. *)
Definition cleanup_spec (c : str) : str :=
  strip (join NL (survivors false (split nl c))).

(** A line as cleanup leaves it. *)
Record tidy (l : str) : Prop := {
  tidy_one_line : ~ In nl l;
  tidy_not_blank : blank l = false;
  tidy_rtrimmed : rstrip l = l;
  tidy_not_fence : is_fence l = false
}.

(** [commit_message] is only ever assigned by [extract]. *)
Definition cleaned (value : option str) : Prop :=
  match value with
  | Some m => m = [] \/ exists c, m = cleanup_spec c
  | None => True
  end.

(** A line is fenced when an odd number of fence lines precede it. *)
Definition fenced (before : list str) : bool :=
  Nat.odd (length (filter is_fence before)).

(** [line] is a line of [c] outside every fenced block, neither a fence
    marker nor blank. *)
Definition prose_line (c line : str) : Prop :=
  exists before rest,
    split nl c = before ++ line :: rest
    /\ is_fence line = false /\ fenced before = false
    /\ blank line = false.

Definition no_leading_space (s : str) : Prop :=
  forall c rest, s = c :: rest -> isspace c = false.

Definition no_trailing_space (s : str) : Prop :=
  forall init c, s = init ++ [c] -> isspace c = false.

Definition blank_line (line : str) : Prop :=
  Forall (fun c => isspace c = true) line.

Definition fence_line (line : str) : Prop := is_prefix FENCE (strip line).

(** What holds of a message after cleanup. *)
Record post_cleanup (m : str) : Prop := {
  pc_nonempty : m <> [];
  pc_no_blank : forall line, In line (split nl m) -> ~ blank_line line;
  pc_no_fence : forall line, In line (split nl m) -> ~ fence_line line;
  pc_lines_rtrimmed :
    forall line, In line (split nl m) -> no_trailing_space line;
  pc_no_leading : no_leading_space m;
  pc_no_trailing : no_trailing_space m
}.

(** Single-quote escaping, character by character. *)
Definition quote_char (c : ascii) : str :=
  if Ascii.eqb c "'"%char then lit "'\''" else [c].

Definition quote_escape (m : str) : str := flat_map quote_char m.

(** The accumulated text log of a conversation: the trimmed text of
    every text block, in arrival order. *)
Definition block_texts (content : list ContentBlock) : list str :=
  flat_map (fun b => match b with
                     | TextBlock text => [strip text]
                     | _ => []
                     end) content.

Definition texts (chat : list Message) : list str :=
  flat_map (fun m => match m with
                     | AssistantMessage content => block_texts content
                     | _ => []
                     end) chat.

(** A session in which the agent says nothing and ends well. *)
Definition silent : Session :=
  {| messages := [ResultMessage false]; ending := None |}.

Definition with_session (w : World) (s : Session) : World :=
  {| session := s; system := system w; clipboard_ok := clipboard_ok w;
     response := response w; git := git w |}.

(** The message an effect carries, if any. *)
Definition carried (e : Effect) : option str :=
  match e with
  | ShowMessage m | Pbcopy m | Xclip m | GitCommit m => Some m
  | _ => None
  end.

(** Effects that touch the clipboard or the repository, or ask. *)
Definition side_effect (e : Effect) : bool :=
  match e with
  | Pbcopy _ | Xclip _ | Copied | ErrClipboardUnsupported
  | ErrClipboardFailed | AskConfirm | CommitCancelled | GitCommit _
  | Committed | ErrCommitFailed | ErrCommitUnexpected => true
  | _ => false
  end.

Definition is_commit (e : Effect) : bool :=
  match e with GitCommit _ => true | _ => false end.

End Spec.

Import Spec.

(** ** Sample runs *)

Module Demo.

Definition flags (commit copy preview : bool) : Args :=
  {| all := false; verbose := false; path := None; max_diff_lines := 500;
     commit := commit; copy := copy; preview := preview |}.

Definition plain : Args := flags false false false.
Definition commit_and_copy : Args := flags true true false.
Definition preview_all : Args := flags true true true.

(** A conversation that ends with a fenced message after the marker. *)
Definition fenced_chat : list Message :=
  [AssistantMessage [TextBlock (lit "Let me check.")];
   AssistantMessage
     [TextBlock (lit "COMMIT_MESSAGE:" ++ NL ++ lit "```" ++ NL
                   ++ lit "feat: add X" ++ NL ++ lit "- detail" ++ NL
                   ++ lit "```")]].

Definition fenced_only : Session :=
  {| messages := fenced_chat ++ [ResultMessage false]; ending := None |}.

(** A conversation that ends with a plain message after the marker. *)
Definition good : Session :=
  {| messages :=
       [AssistantMessage [TextBlock (lit "I'll look at the diff.");
                          ToolUseBlock];
        AssistantMessage
          [TextBlock (lit "COMMIT_MESSAGE:" ++ NL ++ lit "fix: it's done")];
        ResultMessage false];
     ending := None |}.

Definition raising (e : Raised) : Session :=
  {| messages := []; ending := Some e |}.

Definition world_of (s : Session) (reply : option str) (g : CommitResult)
  : World :=
  {| session := s; system := Linux; clipboard_ok := true;
     response := reply; git := g |}.

Definition world (s : Session) : World :=
  world_of s (Some (lit "y")) CommitOk.

End Demo.

(** ** Further vocabulary: the loop, the dispatcher, the escaping *)

Module Props.

(** A [ResultMessage] that is not an error. *)
Definition successful (m : Message) : bool :=
  match m with ResultMessage false => true | _ => false end.

(** The test of lines 168-171 on one entry of the log. *)
Definition takes (text : str) : bool :=
  truthy (strip text)
  && negb (existsb (fun prefix => startswith prefix (lower (strip text)))
             FILLERS).

(** The log holds something to extract: the marker, or an entry the
    fallback takes. *)
Definition findable (log : list str) : bool :=
  contains MARKER (join NL log) || existsb takes log.

(** What a run prints when the session raises [e]. *)
Definition notices (e : Raised) : list Effect * nat :=
  match e with
  | CLINotFoundError => ([ErrCLINotFound; ErrFailedToGenerate], 1)
  | ProcessError => ([ErrProcessError; ErrFailedToGenerate], 1)
  | OtherException => ([ErrUnexpected; ErrFailedToGenerate], 1)
  | KeyboardInterrupt => ([ErrInterrupted], 130)
  end.

Definition clipboard_effect (e : Effect) : bool :=
  match e with
  | Pbcopy _ | Xclip _ | Copied | ErrClipboardUnsupported
  | ErrClipboardFailed => true
  | _ => false
  end.

Definition with_copy (args : Args) (b : bool) : Args :=
  {| all := all args; verbose := verbose args; path := path args;
     max_diff_lines := max_diff_lines args; commit := commit args;
     copy := b; preview := preview args |}.

Definition with_clipboard (w : World) (p : Platform) (ok : bool) : World :=
  {| session := session w; system := p; clipboard_ok := ok;
     response := response w; git := git w |}.

(** The effect that tells which way the dispatcher went. *)
Definition mode_marker (e : Effect) : bool :=
  match e with
  | PreviewComplete | AskConfirm | SuggestCommand _ => true
  | _ => false
  end.

Definition quote : ascii := "'"%char.

End Props.

Import Props.

(** ** More sample runs *)

Module Runs.

(** Two successful results, then text and a failed result. *)
Definition twice_chat : list Message :=
  [AssistantMessage [TextBlock (lit "fix: one")]; ResultMessage false;
   AssistantMessage [TextBlock (lit "Let me add: COMMIT_MESSAGE: two")]].

Definition twice_tail : list Message :=
  [AssistantMessage [TextBlock (lit "COMMIT_MESSAGE: three")];
   ResultMessage true].

Definition twice : Session :=
  {| messages := twice_chat ++ ResultMessage false :: twice_tail;
     ending := None |}.

(** The marker in the last block, on one line. *)
Definition one_line_chat : list Message :=
  [AssistantMessage [TextBlock (lit "I'll read the diff."); ToolUseBlock];
   AssistantMessage [TextBlock (lit "Done. COMMIT_MESSAGE: fix: typo ")]].

Definition one_line : Session :=
  {| messages := one_line_chat ++ [ResultMessage false]; ending := None |}.

(** No marker, and a last answer that is nothing but a fenced block. *)
Definition fenced_answer_chat : list Message :=
  [AssistantMessage [TextBlock (lit "fix: a real message")];
   AssistantMessage
     [TextBlock (lit "```" ++ NL ++ lit "feat: x" ++ NL ++ lit "```")];
   AssistantMessage [TextBlock (lit "Let me know.")]].

Definition fenced_answer : Session :=
  {| messages := fenced_answer_chat ++ [ResultMessage false];
     ending := None |}.

End Runs.

(** ** [spinner.py] *)

Module Spinner.

(** Text as code points: the frames are Braille patterns. *)
Definition text := list N.

Definition frames : list N :=
  [10251; 10265; 10297; 10296; 10300; 10292; 10278; 10279; 10247;
   10255]%N.

Definition CR : N := 13%N.
Definition SP : N := 32%N.

Inductive ThreadRef := Thread.

(** The attributes set by [__init__]. *)
Record Spinner := {
  message : text;
  running : bool;
  thread : option ThreadRef
}.

Definition init (message : text) : Spinner :=
  {| message := message; running := false; thread := None |}.







(** Line 23: what one turn of the loop writes. *)
Definition frame_line (message : text) (idx : nat) : text :=
  CR :: nth (idx mod length frames) frames 0%N :: SP :: message.

(** Line 28. *)
Definition clear_line (message : text) : text :=
  CR :: repeat SP (length message + 3) ++ [CR].

(** Lines 17-29: the writes of [_spin], [reads] being the values of
    [self.running] the loop sees at its successive tests; the writes stop
    short when [reads] does. *)
Fixpoint spin (message : text) (reads : list bool) (idx : nat)
  : list text :=
  match reads with
  | [] => []
  | true :: reads' => frame_line message idx :: spin message reads' (S idx)
  | false :: _ => [clear_line message]
  end.


End Spinner.

(** ** Whitespace and trimming *)

Section Trimming.

Lemma blank_app (a b : str) : blank (a ++ b) = blank a && blank b.
Proof. apply forallb_app. Qed.

Lemma blank_rev (s : str) : blank (rev s) = blank s.
Proof.
  induction s as [|c s IH]; simpl; auto.
  rewrite blank_app, IH. simpl. rewrite andb_true_r. apply andb_comm.
Qed.

Lemma lstrip_blank (s : str) : blank s = true -> lstrip s = [].
Proof.
  induction s as [|c s IH]; simpl; auto.
  intros H. apply andb_prop in H as [Hc Hs]. rewrite Hc. auto.
Qed.

Lemma lstrip_skip (ws t : str) :
  blank ws = true -> lstrip (ws ++ t) = lstrip t.
Proof.
  induction ws as [|c ws IH]; simpl; auto.
  intros H. apply andb_prop in H as [Hc Hs]. rewrite Hc. auto.
Qed.

Lemma lstrip_app (s t : str) :
  blank s = false -> lstrip (s ++ t) = lstrip s ++ t.
Proof.
  induction s as [|c s IH]; simpl; [discriminate|].
  destruct (isspace c); simpl; auto.
Qed.

Lemma lstrip_split (s : str) :
  exists ws, s = ws ++ lstrip s /\ blank ws = true.
Proof.
  induction s as [|c s [ws [E B]]]; simpl.
  - exists []. auto.
  - destruct (isspace c) eqn:Hc.
    + exists (c :: ws). simpl. rewrite Hc, B. split; [congruence|auto].
    + exists []. auto.
Qed.

Lemma lstrip_head (s : str) : no_leading_space (lstrip s).
Proof.
  induction s as [|c s IH]; simpl.
  - intros x r H. discriminate.
  - destruct (isspace c) eqn:Hc; auto.
    intros x r H. injection H as -> _. exact Hc.
Qed.

Lemma lstrip_fixed (s : str) : no_leading_space s -> lstrip s = s.
Proof.
  destruct s as [|c s]; simpl; auto.
  intros H. rewrite (H c s eq_refl). reflexivity.
Qed.

Lemma lstrip_idem (s : str) : lstrip (lstrip s) = lstrip s.
Proof. apply lstrip_fixed, lstrip_head. Qed.

Lemma blank_lstrip (s : str) : blank (lstrip s) = blank s.
Proof.
  destruct (lstrip_split s) as [ws [E B]].
  rewrite E at 2. rewrite blank_app, B. reflexivity.
Qed.

Lemma lstrip_nil (s : str) : lstrip s = [] <-> blank s = true.
Proof.
  split; [|apply lstrip_blank].
  intros H. rewrite <- blank_lstrip, H. reflexivity.
Qed.

Lemma rstrip_blank (s : str) : blank s = true -> rstrip s = [].
Proof.
  intros H. unfold rstrip. rewrite lstrip_blank; auto.
  rewrite blank_rev. exact H.
Qed.

Lemma rstrip_skip (t ws : str) :
  blank ws = true -> rstrip (t ++ ws) = rstrip t.
Proof.
  intros H. unfold rstrip. rewrite rev_app_distr, lstrip_skip; auto.
  rewrite blank_rev. exact H.
Qed.

Lemma rstrip_app (s t : str) :
  blank t = false -> rstrip (s ++ t) = s ++ rstrip t.
Proof.
  intros H. unfold rstrip.
  rewrite rev_app_distr, lstrip_app by (rewrite blank_rev; exact H).
  rewrite rev_app_distr, rev_involutive. reflexivity.
Qed.

Lemma rstrip_split (s : str) :
  exists ws, s = rstrip s ++ ws /\ blank ws = true.
Proof.
  destruct (lstrip_split (rev s)) as [ws [E B]].
  exists (rev ws). rewrite blank_rev. split; auto.
  unfold rstrip. rewrite <- rev_app_distr, <- E, rev_involutive.
  reflexivity.
Qed.

Lemma blank_rstrip (s : str) : blank (rstrip s) = blank s.
Proof.
  unfold rstrip. rewrite blank_rev, blank_lstrip. apply blank_rev.
Qed.

Lemma rstrip_nil (s : str) : rstrip s = [] <-> blank s = true.
Proof.
  split; [|apply rstrip_blank].
  intros H. rewrite <- blank_rstrip, H. reflexivity.
Qed.

Lemma rstrip_tail (s : str) : no_trailing_space (rstrip s).
Proof.
  intros init c H. unfold rstrip in H.
  apply (f_equal (@rev ascii)) in H.
  rewrite rev_involutive, rev_app_distr in H. simpl in H.
  exact (lstrip_head _ H).
Qed.

Lemma rstrip_fixed (s : str) : no_trailing_space s -> rstrip s = s.
Proof.
  intros H. unfold rstrip. rewrite lstrip_fixed.
  - apply rev_involutive.
  - intros c r E. apply (H (rev r) c).
    rewrite <- (rev_involutive s), E. reflexivity.
Qed.

Lemma rstrip_idem (s : str) : rstrip (rstrip s) = rstrip s.
Proof. apply rstrip_fixed, rstrip_tail. Qed.

End Trimming.

Section Strip.

Lemma rstrip_keeps_head (s : str) :
  no_leading_space s -> no_leading_space (rstrip s).
Proof.
  intros H c r E. destruct (rstrip_split s) as [ws [Es _]].
  rewrite E in Es. exact (H c (r ++ ws) Es).
Qed.

Lemma lstrip_keeps_tail (s : str) :
  no_trailing_space s -> no_trailing_space (lstrip s).
Proof.
  intros H init c E. destruct (lstrip_split s) as [ws [Es _]].
  rewrite E in Es. apply (H (ws ++ init) c).
  rewrite Es, app_assoc. reflexivity.
Qed.

Lemma strip_comm (s : str) : rstrip (lstrip s) = lstrip (rstrip s).
Proof.
  destruct (blank s) eqn:B.
  - rewrite (lstrip_blank _ B), (rstrip_blank _ B). reflexivity.
  - destruct (lstrip_split s) as [ws [E Bw]].
    assert (Bl : blank (lstrip s) = false) by (rewrite blank_lstrip; exact B).
    rewrite E at 2. rewrite rstrip_app by exact Bl.
    rewrite lstrip_skip by exact Bw.
    symmetry. apply lstrip_fixed, rstrip_keeps_head, lstrip_head.
Qed.

Lemma strip_nil (s : str) : strip s = [] <-> blank s = true.
Proof.
  unfold strip. rewrite rstrip_nil, blank_lstrip. tauto.
Qed.

Lemma truthy_strip (s : str) : truthy (strip s) = negb (blank s).
Proof.
  destruct (blank s) eqn:B.
  - apply strip_nil in B. rewrite B. reflexivity.
  - destruct (strip s) eqn:E; auto.
    apply strip_nil in E. congruence.
Qed.

Lemma strip_no_leading (s : str) : no_leading_space (strip s).
Proof. apply rstrip_keeps_head, lstrip_head. Qed.

Lemma strip_no_trailing (s : str) : no_trailing_space (strip s).
Proof. apply rstrip_tail. Qed.

Lemma strip_fixed (s : str) :
  no_leading_space s -> no_trailing_space s -> strip s = s.
Proof.
  intros Hl Ht. unfold strip. rewrite (lstrip_fixed Hl).
  apply rstrip_fixed, Ht.
Qed.

Lemma strip_idem (s : str) : strip (strip s) = strip s.
Proof.
  apply strip_fixed; [apply strip_no_leading|apply strip_no_trailing].
Qed.

Lemma strip_rstrip (s : str) : strip (rstrip s) = strip s.
Proof.
  unfold strip. rewrite <- strip_comm, rstrip_idem. reflexivity.
Qed.

Lemma strip_lstrip (s : str) : strip (lstrip s) = strip s.
Proof. unfold strip. rewrite lstrip_idem. reflexivity. Qed.

Lemma blank_iff (s : str) : blank s = true <-> blank_line s.
Proof.
  unfold blank, blank_line. rewrite forallb_forall, Forall_forall. tauto.
Qed.

End Strip.

(** ** Lines: [split] and [join] *)

Section Lines.

Variable sep : ascii.

Lemma split_not_nil (s : str) : split sep s <> [].
Proof.
  induction s as [|c s IH]; simpl; [discriminate|].
  destruct (Ascii.eqb c sep); [discriminate|].
  destruct (split sep s); [contradiction|discriminate].
Qed.

Lemma join_cons (l : str) (ls : list str) :
  ls <> [] -> join [sep] (l :: ls) = l ++ sep :: join [sep] ls.
Proof. destruct ls; [contradiction|reflexivity]. Qed.

Lemma join_split (s : str) : join [sep] (split sep s) = s.
Proof.
  induction s as [|c s IH]; simpl; auto.
  destruct (Ascii.eqb_spec c sep) as [->|Hc].
  - rewrite join_cons by apply split_not_nil. simpl. congruence.
  - pose proof (split_not_nil s) as Hn.
    destruct (split sep s) as [|l ls]; [contradiction|].
    destruct ls as [|l' ls].
    + simpl in *. congruence.
    + rewrite join_cons by discriminate.
      rewrite join_cons in IH by discriminate.
      rewrite <- IH. reflexivity.
Qed.

Lemma split_free (l : str) : ~ In sep l -> split sep l = [l].
Proof.
  induction l as [|c l IH]; simpl; auto.
  intros H. destruct (Ascii.eqb_spec c sep) as [->|Hc]; [tauto|].
  rewrite IH by tauto. reflexivity.
Qed.

Lemma split_app (l t : str) :
  ~ In sep l -> split sep (l ++ sep :: t) = l :: split sep t.
Proof.
  induction l as [|c l IH]; simpl; intros H.
  - rewrite Ascii.eqb_refl. reflexivity.
  - destruct (Ascii.eqb_spec c sep) as [->|Hc]; [tauto|].
    rewrite IH by tauto. reflexivity.
Qed.

Lemma split_join (ls : list str) :
  ls <> [] -> Forall (fun l => ~ In sep l) ls ->
  split sep (join [sep] ls) = ls.
Proof.
  induction ls as [|l ls IH]; [contradiction|].
  intros _ H. inversion H as [|? ? Hl Hls]; subst.
  destruct ls as [|l' ls].
  - simpl. apply split_free, Hl.
  - rewrite join_cons by discriminate.
    rewrite split_app by exact Hl.
    rewrite IH; [reflexivity|discriminate|exact Hls].
Qed.

Lemma split_lines_free (s : str) :
  Forall (fun l => ~ In sep l) (split sep s).
Proof.
  induction s as [|c s IH]; simpl.
  - constructor; auto.
  - destruct (Ascii.eqb_spec c sep) as [->|Hc].
    + constructor; auto.
    + pose proof (split_not_nil s) as Hn.
      destruct (split sep s) as [|l ls]; [contradiction|].
      inversion IH; subst. constructor; auto.
      simpl. intros [E|E]; [congruence|tauto].
Qed.

End Lines.

(** ** Prefixes and occurrences *)

Section Occurrences.

Lemma startswith_iff (p s : str) : startswith p s = true <-> is_prefix p s.
Proof.
  revert s. induction p as [|a p IH]; intros s; simpl.
  - split; auto. intros _. exists s. reflexivity.
  - destruct s as [|b s].
    + split; [discriminate|]. intros [r E]. discriminate.
    + rewrite andb_true_iff, IH. split.
      * intros [E [r ->]]. apply Ascii.eqb_eq in E as ->.
        exists r. reflexivity.
      * intros [r E]. injection E as -> ->. split.
        -- apply Ascii.eqb_refl.
        -- exists r. reflexivity.
Qed.

Lemma startswith_skipn (p s : str) :
  startswith p s = true -> s = p ++ skipn (length p) s.
Proof.
  intros H. apply startswith_iff in H as [r ->].
  rewrite skipn_app, skipn_all, Nat.sub_diag. reflexivity.
Qed.

Lemma same_length_cut (a a' x y : str) :
  a ++ x = a' ++ y -> length a = length a' -> a = a' /\ x = y.
Proof.
  revert a'. induction a as [|c a IH]; intros [|c' a']; simpl;
    try discriminate; auto.
  intros E L. injection E as -> E. injection L as L.
  destruct (IH _ E L) as [-> ->]. auto.
Qed.

Lemma partition_first (sep s a b : str) :
  partition sep s = Some (a, b) -> first_cut sep s a b.
Proof.
  revert a b. induction s as [|c s IH]; intros a b; simpl.
  - destruct (startswith sep []) eqn:P; [|discriminate].
    intros E. injection E as <- <-. split.
    + apply (startswith_skipn _ _ P).
    + intros; simpl; lia.
  - destruct (startswith sep (c :: s)) eqn:P.
    + intros E. injection E as <- <-. split.
      * apply (startswith_skipn _ _ P).
      * intros; simpl; lia.
    + destruct (partition sep s) as [[a' b']|]; [|discriminate].
      intros E. injection E as <- <-.
      destruct (IH _ _ eq_refl) as [C F]. split.
      * unfold cut_at in *. simpl. congruence.
      * intros [|c' b0] a0 E0.
        -- assert (startswith sep (c :: s) = true); [|congruence].
           apply startswith_iff. exists a0. exact E0.
        -- unfold cut_at in E0. simpl in E0. injection E0 as _ E0.
           simpl. apply le_n_S, (F b0 a0 E0).
Qed.

Lemma occurs_partition (sep s : str) :
  occurs sep s -> exists a b, partition sep s = Some (a, b).
Proof.
  intros [b0 [a0 E]]. revert s E.
  induction b0 as [|c b0 IH]; intros s E.
  - assert (P : startswith sep s = true)
      by (apply startswith_iff; exists a0; exact E).
    destruct s; simpl; rewrite P; eauto.
  - unfold cut_at in E. simpl in E. subst s. simpl.
    destruct (startswith sep _); eauto.
    destruct (IH _ eq_refl) as [a [b ->]]. eauto.
Qed.

Lemma contains_iff (sub s : str) : contains sub s = true <-> occurs sub s.
Proof.
  induction s as [|c s IH]; simpl.
  - rewrite orb_false_r, startswith_iff. split.
    + intros [r E]. exists [], r. exact E.
    + intros [[|x b] [a E]]; [exists a; exact E|discriminate].
  - rewrite orb_true_iff, startswith_iff, IH. split.
    + intros [[r E]|[b [a E]]].
      * exists [], r. exact E.
      * exists (c :: b), a. unfold cut_at in *. simpl. congruence.
    + intros [[|x b] [a E]].
      * left. exists a. exact E.
      * right. unfold cut_at in E. simpl in E. injection E as _ E.
        exists b, a. exact E.
Qed.

Lemma contains_false (sub s : str) : contains sub s = false -> ~ occurs sub s.
Proof. intros H O. apply contains_iff in O. congruence. Qed.

Lemma first_cut_unique (sub s a b a' b' : str) :
  first_cut sub s a b -> first_cut sub s a' b' -> a = a' /\ b = b'.
Proof.
  intros [C F] [C' F'].
  assert (L : length a = length a')
    by (apply Nat.le_antisymm; [apply (F _ _ C')|apply (F' _ _ C)]).
  unfold cut_at in *. rewrite C in C'.
  destruct (same_length_cut _ _ _ _ C' L) as [-> E].
  apply app_inv_head in E. auto.
Qed.

End Occurrences.

(** ** The candidate *)

Section Candidate.

Lemma candidate_marker (prev : option str) (log : list str) (a b : str) :
  partition MARKER (join NL log) = Some (a, b) ->
  candidate prev log = Some (strip b).
Proof.
  intros P. unfold candidate, split1.
  assert (C : contains MARKER (join NL log) = true).
  { apply contains_iff. exists a, b. apply (partition_first _ _ P). }
  rewrite C, P. reflexivity.
Qed.

Lemma filler_test (text : str) :
  existsb (fun prefix => startswith prefix (lower text)) FILLERS = true
  <-> filler text.
Proof.
  rewrite existsb_exists. unfold filler.
  split; intros [p [I H]]; exists p; split; auto;
    apply startswith_iff; exact H.
Qed.

Lemma fallback_take (prev : option str) (entry : str) (rest : list str) :
  meaningful entry -> fallback prev (entry :: rest) = Some (strip entry).
Proof.
  intros [N F]. cbn [fallback].
  assert (X : existsb (fun prefix => startswith prefix (lower (strip entry)))
                FILLERS = false).
  { apply not_true_is_false. intros X. apply filler_test in X.
    contradiction. }
  rewrite X. destruct (strip entry); [contradiction|reflexivity].
Qed.

Lemma fallback_skip (prev : option str) (entries rest : list str) :
  Forall skipped entries ->
  fallback prev (entries ++ rest) = fallback prev rest.
Proof.
  induction 1 as [|e es [N|F] _ IH]; cbn [fallback app]; auto.
  - rewrite N. exact IH.
  - apply filler_test in F. rewrite F, andb_false_r. exact IH.
Qed.

End Candidate.

(** C1.  When the joined log contains [COMMIT_MESSAGE:], the candidate is
    the trimmed text that follows the leftmost occurrence of the marker,
    whatever that text contains, later occurrences included. *)
Theorem marker_first_occurrence
  (log : list str) (prev : option str) (before after : str) :
  cut_at MARKER (join NL log) before after ->
  exists pre post,
    first_cut MARKER (join NL log) pre post
    /\ candidate prev log = Some (strip post).
Proof.
  intros C.
  destruct (@occurs_partition MARKER (join NL log)) as [a [b P]].
  { exists before, after. exact C. }
  exists a, b. split.
  - apply partition_first, P.
  - apply (candidate_marker _ _ P).
Qed.

Lemma marker_first_occurrence_witness :
  exists pre post,
    first_cut MARKER
      (join NL [lit "Done."; lit "COMMIT_MESSAGE: fix: a COMMIT_MESSAGE: b"])
      pre post
    /\ candidate None
         [lit "Done."; lit "COMMIT_MESSAGE: fix: a COMMIT_MESSAGE: b"]
       = Some (strip post).
Proof.
  apply (@marker_first_occurrence _ None
           (lit "Done." ++ NL) (lit " fix: a COMMIT_MESSAGE: b")).
  reflexivity.
Defined.

(** C2.  When the joined log does not contain the marker, the candidate
    is the last entry of the log that, once trimmed, is neither empty nor
    opened by a filler phrase in any letter case (every later entry being
    empty or filler); it is absent, and so is the extracted message, when
    every entry is empty or filler, which covers the empty log. *)
Theorem fallback_last_meaningful (log : list str) :
  ~ occurs MARKER (join NL log) ->
  (forall earlier entry later,
      log = earlier ++ entry :: later ->
      meaningful entry -> Forall skipped later ->
      candidate None log = Some (strip entry)
      /\ (trimmed entry -> candidate None log = Some entry))
  /\ (Forall skipped log ->
      candidate None log = None /\ extract None log = None).
Proof.
  intros NO.
  assert (C : contains MARKER (join NL log) = false).
  { destruct (contains MARKER (join NL log)) eqn:E; auto.
    apply contains_iff in E. contradiction. }
  unfold extract, candidate. rewrite C. split.
  - intros earlier entry later -> M S.
    assert (E : fallback None (rev (earlier ++ entry :: later))
                = Some (strip entry)).
    { rewrite rev_app_distr. simpl. rewrite <- app_assoc. simpl.
      rewrite fallback_skip by (apply Forall_rev, S).
      apply fallback_take, M. }
    split; [exact E|]. intros T. rewrite E, T. reflexivity.
  - intros S. apply Forall_rev in S.
    rewrite <- (app_nil_r (rev log)), (fallback_skip None [] S).
    simpl. auto.
Qed.

Lemma fallback_last_meaningful_witness :
  candidate None [lit "Let me check."; lit "fix: thing"; lit "I'll stop."]
  = Some (lit "fix: thing").
Proof.
  assert (NO : ~ occurs MARKER
                 (join NL [lit "Let me check."; lit "fix: thing";
                           lit "I'll stop."]))
    by (apply contains_false; reflexivity).
  assert (M : meaningful (lit "fix: thing")).
  { split; [discriminate|].
    intros F. apply filler_test in F. discriminate F. }
  assert (S : Forall skipped [lit "I'll stop."]).
  { constructor; [|constructor]. right. apply filler_test. reflexivity. }
  exact (proj1 (proj1 (@fallback_last_meaningful _ NO)
                  [lit "Let me check."] (lit "fix: thing")
                  [lit "I'll stop."] eq_refl M S)).
Defined.

(** ** Markdown cleanup *)

Section Cleanup.

(** The loop of lines 181-186 computes the surviving lines. *)
Lemma clean_loop (lines : list str) (inside : bool) (acc : list str) :
  snd (fold_left clean_line lines (inside, acc))
  = acc ++ survivors inside lines.
Proof.
  revert inside acc. induction lines as [|l ls IH]; intros inside acc.
  - simpl. rewrite app_nil_r. reflexivity.
  - cbn [fold_left survivors]. unfold clean_line at 2. fold (is_fence l).
    rewrite truthy_strip.
    destruct (is_fence l); [apply IH|].
    destruct inside; cbn [negb andb orb]; [apply IH|].
    destruct (blank l); cbn [negb]; [apply IH|].
    rewrite IH, <- app_assoc. reflexivity.
Qed.

Lemma clean_markdown_spec (c : str) : clean_markdown c = cleanup_spec c.
Proof. unfold clean_markdown, cleanup_spec. rewrite clean_loop. reflexivity. Qed.

Lemma fenced_cons (l : str) (before : list str) :
  fenced (l :: before) = xorb (is_fence l) (fenced before).
Proof.
  unfold fenced. simpl filter. destruct (is_fence l).
  - cbn [length]. rewrite Nat.odd_succ, <- Nat.negb_odd. reflexivity.
  - reflexivity.
Qed.

(** A line survives exactly when it comes from a line that is not a fence
    marker, is not blank, and has an even number of fence markers before
    it (odd when the scan starts inside a block). *)
Lemma survivors_in (lines : list str) (inside : bool) (x : str) :
  In x (survivors inside lines) <->
  exists before l rest,
    lines = before ++ l :: rest /\ x = rstrip l
    /\ is_fence l = false /\ xorb inside (fenced before) = false
    /\ blank l = false.
Proof.
  revert inside. induction lines as [|l0 ls IH]; intros inside.
  - simpl. split; [tauto|].
    intros [before [l [rest [E _]]]]. destruct before; discriminate.
  - cbn [survivors]. split.
    + intros H.
      assert (K : forall flag,
                 In x (survivors flag ls) ->
                 xorb inside (is_fence l0) = flag ->
                 exists before l rest,
                   l0 :: ls = before ++ l :: rest /\ x = rstrip l
                   /\ is_fence l = false
                   /\ xorb inside (fenced before) = false
                   /\ blank l = false).
      { intros flag I X. apply IH in I as [b [l [r [E [Ex [F [P B]]]]]]].
        exists (l0 :: b), l, r. rewrite fenced_cons, E.
        repeat split; auto.
        subst flag. revert P.
        destruct inside, (is_fence l0), (fenced b); simpl; auto. }
      destruct (is_fence l0) eqn:F0.
      * apply (K _ H). destruct inside; reflexivity.
      * destruct inside; cbn [orb] in H.
        -- apply (K _ H). reflexivity.
        -- destruct (blank l0) eqn:B0.
           ++ apply (K _ H). reflexivity.
           ++ destruct H as [<-|H]; [|apply (K _ H); reflexivity].
              exists [], l0, ls. auto.
    + intros [before [l [rest [E [Ex [F [P B]]]]]]].
      destruct before as [|b0 before]; simpl in E; injection E as <- E.
      * unfold fenced in P. simpl in P. rewrite F.
        destruct inside; [discriminate|]. rewrite B. left. auto.
      * rewrite fenced_cons in P.
        assert (I : In x (survivors (xorb inside (is_fence l0)) ls)).
        { apply IH. exists before, l, rest. repeat split; auto.
          revert P. destruct inside, (is_fence l0), (fenced before);
            simpl; auto. }
        destruct (is_fence l0).
        -- destruct inside; exact I.
        -- rewrite xorb_false_r in I.
           destruct inside; cbn [orb]; auto.
           destruct (blank l0); [exact I|right; exact I].
Qed.

Lemma rstrip_incl (l : str) (c : ascii) : In c (rstrip l) -> In c l.
Proof.
  destruct (rstrip_split l) as [ws [E _]]. intros H.
  rewrite E. apply in_or_app. auto.
Qed.

Lemma lstrip_incl (l : str) (c : ascii) : In c (lstrip l) -> In c l.
Proof.
  destruct (lstrip_split l) as [ws [E _]]. intros H.
  rewrite E. apply in_or_app. auto.
Qed.

Lemma survivors_tidy (lines : list str) (inside : bool) :
  Forall (fun l => ~ In nl l) lines ->
  Forall tidy (survivors inside lines).
Proof.
  intros H. apply Forall_forall. intros x I.
  apply survivors_in in I as [b [l [r [E [-> [F [_ B]]]]]]].
  rewrite Forall_forall in H.
  assert (Hl : ~ In nl l) by (apply H; rewrite E; apply in_elt).
  constructor.
  - intros I. apply Hl, rstrip_incl, I.
  - rewrite blank_rstrip. exact B.
  - apply rstrip_idem.
  - unfold is_fence in *. rewrite strip_rstrip. exact F.
Qed.

Lemma tidy_lstrip (l : str) : tidy l -> tidy (lstrip l).
Proof.
  intros [O B R F]. constructor.
  - intros I. apply O, lstrip_incl, I.
  - rewrite blank_lstrip. exact B.
  - rewrite strip_comm, R. reflexivity.
  - unfold is_fence in *. rewrite strip_lstrip. exact F.
Qed.

Lemma survivors_fixed (ls : list str) :
  Forall tidy ls -> survivors false ls = ls.
Proof.
  induction 1 as [|l ls [O B R F] _ IH]; simpl; auto.
  rewrite F, B, R, IH. reflexivity.
Qed.

Lemma join_tidy (ls : list str) :
  ls <> [] -> Forall tidy ls ->
  blank (join NL ls) = false /\ rstrip (join NL ls) = join NL ls.
Proof.
  induction ls as [|l ls IH]; [contradiction|].
  intros _ H. inversion H as [|? ? [O B R F] Hls]; subst.
  destruct ls as [|l2 ls].
  - simpl. auto.
  - destruct IH as [Bj Rj]; [discriminate|exact Hls|].
    unfold NL in *. rewrite join_cons by discriminate.
    assert (Bn : blank (nl :: join [nl] (l2 :: ls)) = false)
      by (cbn [blank forallb]; fold (blank (join [nl] (l2 :: ls)));
          rewrite Bj; apply andb_false_r).
    split.
    + rewrite blank_app, B. reflexivity.
    + rewrite rstrip_app by exact Bn.
      change (nl :: join [nl] (l2 :: ls))
        with ([nl] ++ join [nl] (l2 :: ls)).
      rewrite rstrip_app by exact Bj. rewrite Rj. reflexivity.
Qed.

(** Trimming the joined survivors only trims the head of the first. *)
Lemma strip_join (l : str) (ls : list str) :
  Forall tidy (l :: ls) ->
  strip (join NL (l :: ls)) = join NL (lstrip l :: ls).
Proof.
  intros H. inversion H as [|? ? [O B R F] Hls]; subst.
  destruct ls as [|l2 ls].
  - simpl. unfold strip. rewrite strip_comm, R. reflexivity.
  - unfold NL. rewrite (@join_cons nl l) by discriminate.
    rewrite (@join_cons nl (lstrip l)) by discriminate.
    unfold strip. rewrite lstrip_app by exact B.
    destruct (@join_tidy (l2 :: ls)) as [Bj Rj];
      [discriminate|exact Hls|]. unfold NL in *.
    change (lstrip l ++ nl :: join [nl] (l2 :: ls))
      with (lstrip l ++ [nl] ++ join [nl] (l2 :: ls)).
    rewrite app_assoc, rstrip_app by exact Bj.
    rewrite Rj, <- app_assoc. reflexivity.
Qed.

(** The shape of a cleaned message: empty, or tidy lines joined by
    newlines, the first one trimmed on the left as well. *)
Lemma cleanup_spec_shape (c : str) :
  (survivors false (split nl c) = [] /\ cleanup_spec c = [])
  \/ exists l ls,
       survivors false (split nl c) = l :: ls
       /\ Forall tidy (lstrip l :: ls)
       /\ cleanup_spec c = join NL (lstrip l :: ls)
       /\ split nl (cleanup_spec c) = lstrip l :: ls.
Proof.
  unfold cleanup_spec.
  pose proof (@survivors_tidy (split nl c) false (split_lines_free nl c))
    as T.
  destruct (survivors false (split nl c)) as [|l ls]; [left; auto|].
  right. exists l, ls.
  assert (T' : Forall tidy (lstrip l :: ls)).
  { inversion T; subst. constructor; auto. apply tidy_lstrip; auto. }
  rewrite (strip_join T). repeat split; auto.
  apply split_join; [discriminate|].
  eapply Forall_impl; [|exact T']. intros a [O _ _ _]. exact O.
Qed.

Lemma cleanup_spec_idem (c : str) :
  cleanup_spec (cleanup_spec c) = cleanup_spec c.
Proof.
  destruct (cleanup_spec_shape c) as [[_ E]|[l [ls [_ [T [E S]]]]]].
  - rewrite E. reflexivity.
  - unfold cleanup_spec at 1. rewrite S, (survivors_fixed T).
    rewrite (strip_join T), lstrip_idem. symmetry. exact E.
Qed.

End Cleanup.

(** The marker path on a log with a fenced block before the marker, and
    on one whose message is wholly fenced. *)
Example marker_after_fence :
  extract None [lit "```" ++ NL ++ lit "foo" ++ NL ++ lit "```" ++ NL
                  ++ lit "COMMIT_MESSAGE: fix: bar" ++ NL]
  = Some (lit "fix: bar").
Proof. reflexivity. Qed.

Example fenced_message_is_empty :
  extract None (texts Demo.fenced_chat) = Some [].
Proof. reflexivity. Qed.

(** C3.  A non-empty candidate is cleaned as described: its lines are
    scanned with a fenced-block flag that every fence marker toggles, the
    markers, the lines inside a block and the blank lines are dropped, the
    others are right-trimmed, joined by newlines, and the whole is
    trimmed.  The surviving lines are exactly the right-trimmed prose
    lines, so that every line of the final message comes from a line
    outside the fences. *)
Theorem cleanup_drops_fenced (c : str) :
  c <> [] ->
  cleanup (Some c) = Some (cleanup_spec c)
  /\ (forall x, In x (survivors false (split nl c))
                <-> exists src, prose_line c src /\ x = rstrip src)
  /\ (cleanup_spec c = []
      \/ forall line, In line (split nl (cleanup_spec c)) ->
           exists src, prose_line c src
                       /\ (line = rstrip src \/ line = strip src)).
Proof.
  intros N.
  assert (P : forall x, In x (survivors false (split nl c))
                        <-> exists src, prose_line c src /\ x = rstrip src).
  { intros x. rewrite survivors_in. unfold prose_line. split.
    - intros [b [l [r [E [Ex [F [X B]]]]]]]. exists l. split; auto.
      exists b, r. auto.
    - intros [l [[b [r [E [F [X B]]]]] Ex]]. exists b, l, r. auto. }
  split; [|split; [exact P|]].
  - destruct c; [contradiction|]. simpl. rewrite clean_markdown_spec.
    reflexivity.
  - destruct (cleanup_spec_shape c) as [[_ E]|[l [ls [K [_ [_ S]]]]]];
      [left; exact E|right].
    rewrite S. intros line [<-|I].
    + destruct (proj1 (P l)) as [src [Hs ->]]; [rewrite K; left; auto|].
      exists src. split; auto. right. symmetry. apply strip_comm.
    + destruct (proj1 (P line)) as [src [Hs ->]]; [rewrite K; right; auto|].
      exists src. auto.
Qed.

Lemma cleanup_drops_fenced_witness :
  cleanup (Some (lit "feat: x" ++ NL ++ lit "```" ++ NL ++ lit "code"
                   ++ NL ++ lit "```" ++ NL ++ NL ++ lit "- y  "))
  = Some (lit "feat: x" ++ NL ++ lit "- y").
Proof.
  refine (proj1 (@cleanup_drops_fenced
                   (lit "feat: x" ++ NL ++ lit "```" ++ NL ++ lit "code"
                      ++ NL ++ lit "```" ++ NL ++ NL ++ lit "- y  ") _)).
  discriminate.
Defined.

(** C9.  Cleanup is idempotent: cleaning a cleaned string changes
    nothing, for the cleanup of lines 177-188 and for the guarded step of
    lines 176-188. *)
Theorem cleanup_idempotent (c : str) (value : option str) :
  clean_markdown (clean_markdown c) = clean_markdown c
  /\ cleanup (cleanup value) = cleanup value.
Proof.
  assert (I : forall s, clean_markdown (clean_markdown s) = clean_markdown s)
    by (intros s; rewrite !clean_markdown_spec; apply cleanup_spec_idem).
  split; [apply I|].
  destruct value as [m|]; simpl; auto.
  destruct (truthy m) eqn:T; simpl.
  - rewrite I. destruct (truthy (clean_markdown m)); reflexivity.
  - rewrite T. reflexivity.
Qed.

(** ** The event loop *)

Section Loop.

Lemma on_block_texts (content : list ContentBlock) (acc : list str) :
  fold_left on_block content acc = acc ++ block_texts content.
Proof.
  revert acc. induction content as [|b bs IH]; intros acc; simpl.
  - rewrite app_nil_r. reflexivity.
  - rewrite IH. destruct b; simpl; auto.
    rewrite <- app_assoc. reflexivity.
Qed.

Lemma loop_texts (ms : list Message) (st : LoopState) :
  all_text (fold_left on_message ms st) = all_text st ++ texts ms.
Proof.
  revert st. induction ms as [|m ms IH]; intros st; simpl.
  - rewrite app_nil_r. reflexivity.
  - rewrite IH. destruct m as [content|[]|]; simpl;
      rewrite ?app_nil_r; auto.
    rewrite on_block_texts, <- app_assoc. reflexivity.
Qed.

Lemma run_loop_texts (ms : list Message) : all_text (run_loop ms) = texts ms.
Proof. apply loop_texts. Qed.

Lemma texts_trimmed (ms : list Message) : Forall trimmed (texts ms).
Proof.
  apply Forall_forall. intros t I. unfold texts in I.
  apply in_flat_map in I as [m [_ I]]. destruct m as [content| |]; try easy.
  apply in_flat_map in I as [b [_ I]]. destruct b; try easy.
  destruct I as [<-|[]]. apply strip_idem.
Qed.

Lemma extract_cleaned (prev : option str) (log : list str) :
  cleaned (extract prev log).
Proof.
  unfold extract. destruct (candidate prev log) as [m|]; simpl; auto.
  destruct m as [|a m]; simpl; auto.
  right. exists (a :: m). apply clean_markdown_spec.
Qed.

Lemma loop_cleaned (ms : list Message) (st : LoopState) :
  cleaned (commit_message st) ->
  cleaned (commit_message (fold_left on_message ms st)).
Proof.
  revert st. induction ms as [|m ms IH]; intros st H; simpl; auto.
  apply IH. destruct m as [content|[]|]; simpl; auto.
  apply extract_cleaned.
Qed.

Lemma loop_snoc (ms : list Message) (m : Message) :
  run_loop (ms ++ [m]) = on_message (run_loop ms) m.
Proof. unfold run_loop. rewrite fold_left_app. reflexivity. Qed.

Lemma cleanup_spec_post (c : str) :
  cleanup_spec c <> [] -> post_cleanup (cleanup_spec c).
Proof.
  intros N.
  destruct (cleanup_spec_shape c) as [[_ E]|[l [ls [_ [T [_ S]]]]]];
    [contradiction|].
  rewrite Forall_forall in T.
  constructor; auto; try (rewrite S; intros line I; apply T in I;
                          destruct I as [O B R F]).
  - intros L. apply blank_iff in L. congruence.
  - intros L. apply startswith_iff in L. unfold is_fence in F. congruence.
  - rewrite <- R. apply rstrip_tail.
  - apply strip_no_leading.
  - apply strip_no_trailing.
Qed.

Lemma generate_value (s : Session) (out : list Effect) (value : option str) :
  generate_commit_message s = (out, Returned value) ->
  (value = None \/ (ending s = None /\ out = []
                    /\ value = commit_message (run_loop (messages s))))
  /\ Forall (fun e => carried e = None /\ side_effect e = false
                      /\ forall q, e <> SuggestCommand q) out.
Proof.
  unfold generate_commit_message.
  destruct (ending s) as [[]|]; intros E; inversion E; subst; clear E;
    (split; [auto|]); repeat constructor; discriminate.
Qed.

Lemma generate_post (s : Session) (out : list Effect) (m : str) :
  generate_commit_message s = (out, Returned (Some m)) ->
  m <> [] -> post_cleanup m.
Proof.
  intros G N. apply generate_value in G as [[G|[_ [_ G]]] _];
    [discriminate|].
  pose proof (@loop_cleaned (messages s)
                {| commit_message := None; all_text := [] |} I) as C.
  fold (run_loop (messages s)) in C. rewrite <- G in C.
  destruct C as [C|[c ->]]; [contradiction|].
  apply cleanup_spec_post, N.
Qed.

End Loop.

(** ** The dispatcher *)

Section Dispatch.

Lemma str_eqb_eq (a b : str) : str_eqb a b = true <-> a = b.
Proof.
  revert b. induction a as [|x a IH]; intros [|y b]; simpl;
    try (split; [discriminate|discriminate]); [tauto|].
  rewrite andb_true_iff, Ascii.eqb_eq, IH.
  split; [intros [-> ->]; auto|intros E; injection E; auto].
Qed.

Lemma lower_char_y (c : ascii) :
  lower_char c = "y"%char <-> c = "y"%char \/ c = "Y"%char.
Proof.
  split.
  - destruct c as [[] [] [] [] [] [] [] []]; vm_compute; intros E;
      try discriminate E; auto.
  - intros [->| ->]; reflexivity.
Qed.

(** Only [y] and [Y] lowercase to [y]. *)
Lemma lower_y (reply : str) :
  lower reply = lit "y" <-> reply = lit "y" \/ reply = lit "Y".
Proof.
  split.
  - destruct reply as [|c [|d r]]; try discriminate.
    intros E. injection E as E. apply lower_char_y in E as [->| ->]; auto.
  - intros [->| ->]; reflexivity.
Qed.

Lemma replace_char (q : ascii) (new s : str) :
  replace [q] new s
  = flat_map (fun c => if Ascii.eqb c q then new else [c]) s.
Proof.
  unfold replace. induction s as [|c s IH]; auto.
  cbn [replace_from startswith flat_map length Nat.sub].
  rewrite andb_true_r, Ascii.eqb_sym, IH.
  destruct (Ascii.eqb c q); reflexivity.
Qed.

Lemma escape_spec (m : str) : escape m = quote_escape m.
Proof. apply replace_char. Qed.

Lemma quote_escape_app (a b : str) :
  quote_escape (a ++ b) = quote_escape a ++ quote_escape b.
Proof. apply flat_map_app. Qed.

Lemma clipboard_effects (w : World) (m : str) :
  Forall (fun e => (forall m', carried e = Some m' -> m' = m)
                   /\ is_commit e = false
                   /\ forall q, e <> SuggestCommand q)
    (copy_to_clipboard w m).
Proof.
  unfold copy_to_clipboard.
  destruct (system w), (clipboard_ok w); repeat constructor;
    simpl; try discriminate; congruence.
Qed.

Lemma commit_effects (w : World) (m : str) :
  Forall (fun e => (forall m', carried e = Some m' -> m' = m)
                   /\ forall q, e <> SuggestCommand q)
    (fst (do_commit w m)).
Proof.
  unfold do_commit.
  destruct (response w) as [r|]; [destruct (str_eqb (lower r) (lit "y"));
                                  [destruct (git w)|]|];
    repeat constructor; simpl; try discriminate; congruence.
Qed.

(** Whatever the dispatcher shows, copies, commits or suggests is built
    from the message it was given. *)
Lemma dispatch_effects (args : Args) (w : World) (m : str) :
  Forall (fun e => (forall m', carried e = Some m' -> m' = m)
                   /\ forall q, e = SuggestCommand q ->
                                q = command_line (escape m))
    (fst (dispatch args w m)).
Proof.
  assert (Hc : Forall (fun e => (forall m', carried e = Some m' -> m' = m)
                   /\ forall q, e = SuggestCommand q ->
                                q = command_line (escape m))
                 (if copy args then copy_to_clipboard w m else [])).
  { destruct (copy args); [|constructor].
    eapply Forall_impl; [|apply clipboard_effects].
    intros e [A [_ B]]. split; auto. intros q E. destruct (B q E). }
  unfold dispatch. destruct (preview args).
  - repeat constructor; simpl; try discriminate; congruence.
  - destruct (commit args).
    + pose proof (commit_effects w m) as Hd.
      destruct (do_commit w m) as [out code]. simpl in *.
      constructor; [split; simpl; [congruence|discriminate]|].
      apply Forall_app. split; auto.
      eapply Forall_impl; [|exact Hd].
      intros e [A B]. split; auto. intros q E. destruct (B q E).
    + simpl. constructor; [split; simpl; [congruence|discriminate]|].
      apply Forall_app. split; auto.
      repeat constructor; simpl; try discriminate; congruence.
Qed.

End Dispatch.

(** ** Exit status and effects of a run *)

Section Run.

Lemma candidate_first_cut (prev : option str) (log : list str)
      (before after : str) :
  first_cut MARKER (join NL log) before after ->
  candidate prev log = Some (strip after).
Proof.
  intros F.
  destruct (@occurs_partition MARKER (join NL log)) as [a [b P]].
  { exists before, after. apply F. }
  destruct (first_cut_unique (partition_first _ _ P) F) as [_ ->].
  apply (candidate_marker _ _ P).
Qed.

(** A run whose session ends well goes on with the value of the loop. *)
Lemma main_ended (args : Args) (w : World) :
  ending (session w) = None ->
  main args w
  = match commit_message (run_loop (messages (session w))) with
    | Some m => if truthy m then dispatch args w m
                else ([ErrFailedToGenerate], 1)
    | None => ([ErrFailedToGenerate], 1)
    end.
Proof.
  intros E. unfold main, generate_commit_message. rewrite E.
  destruct (commit_message _) as [m|]; auto.
  destruct (truthy m); auto. destruct (dispatch args w m). reflexivity.
Qed.

Lemma truthy_iff (m : str) : truthy m = true <-> m <> [].
Proof. destruct m; simpl; split; congruence. Qed.

Lemma do_commit_reply (w : World) (m reply : str) :
  response w = Some reply ->
  do_commit w m
  = if str_eqb (lower reply) (lit "y")
    then match git w with
         | CommitOk => ([AskConfirm; GitCommit m; Committed], 0)
         | CalledProcessError =>
             ([AskConfirm; GitCommit m; ErrCommitFailed], 1)
         | CommitRaises =>
             ([AskConfirm; GitCommit m; ErrCommitUnexpected], 1)
         end
    else ([AskConfirm; CommitCancelled], 0).
Proof.
  intros R. unfold do_commit. rewrite R.
  destruct (str_eqb _ _); reflexivity.
Qed.

End Run.

(** C4.  When the text after the first [COMMIT_MESSAGE:] is empty, or is
    removed entirely by the cleanup, the run ends as it does when the
    agent says nothing at all: the failure notice alone, exit status 1. *)
Theorem empty_after_marker_fails
  (args : Args) (w : World) (chat : list Message) (before after : str) :
  ending (session w) = None ->
  messages (session w) = chat ++ [ResultMessage false] ->
  first_cut MARKER (join NL (texts chat)) before after ->
  cleanup_spec (strip after) = [] ->
  main args w = ([ErrFailedToGenerate], 1)
  /\ main args w = main args (with_session w silent).
Proof.
  intros E M F C.
  assert (R : main args w = ([ErrFailedToGenerate], 1)).
  { rewrite (main_ended _ _ E), M, loop_snoc. cbn [on_message].
    cbn [commit_message]. rewrite run_loop_texts. unfold extract.
    rewrite (candidate_first_cut _ _ F). unfold cleanup.
    destruct (truthy (strip after)) eqn:T.
    - rewrite clean_markdown_spec, C. reflexivity.
    - rewrite T. reflexivity. }
  split; [exact R|]. rewrite R. reflexivity.
Qed.

Lemma empty_after_marker_fails_witness :
  main Demo.commit_and_copy (Demo.world Demo.fenced_only)
  = ([ErrFailedToGenerate], 1).
Proof.
  refine (proj1 (@empty_after_marker_fails
     Demo.commit_and_copy (Demo.world Demo.fenced_only)
     Demo.fenced_chat
     (lit "Let me check." ++ NL)
     (NL ++ lit "```" ++ NL ++ lit "feat: add X" ++ NL
         ++ lit "- detail" ++ NL ++ lit "```")
     eq_refl eq_refl _ eq_refl)).
  apply partition_first. reflexivity.
Defined.

Section RunFacts.

Lemma generate_quiet (s : Session) :
  Forall (fun e => carried e = None /\ side_effect e = false
                   /\ is_commit e = false
                   /\ forall q, e <> SuggestCommand q)
    (fst (generate_commit_message s)).
Proof.
  unfold generate_commit_message.
  destruct (ending s) as [[]|]; repeat constructor; discriminate.
Qed.

(** A run that got a message shows it and dispatches on it. *)
Lemma main_message (args : Args) (w : World) (out : list Effect) (m : str) :
  generate_commit_message (session w) = (out, Returned (Some m)) ->
  m <> [] ->
  out = []
  /\ main args w = dispatch args w m.
Proof.
  intros G N. unfold main. rewrite G.
  apply truthy_iff in N. rewrite N.
  apply generate_value in G as [[G|[_ [-> _]]] _]; [discriminate|].
  destruct (dispatch args w m). auto.
Qed.

End RunFacts.

(** C5.  The exit status is 130 when the session is interrupted; 1 when
    the session raises anything else, when it ends without a message
    (none, or an empty one), and when [git commit] fails after a
    confirmed prompt; 0 when a message was produced and the run previews,
    suggests, is declined at the prompt, or commits. *)
Theorem exit_status (args : Args) (w : World) :
  (ending (session w) = Some KeyboardInterrupt -> snd (main args w) = 130)
  /\ (forall e, ending (session w) = Some e -> e <> KeyboardInterrupt ->
                snd (main args w) = 1)
  /\ (ending (session w) = None ->
      let value := commit_message (run_loop (messages (session w))) in
      (value = None \/ value = Some [] -> snd (main args w) = 1)
      /\ forall m, value = Some m -> m <> [] ->
           (preview args = true -> snd (main args w) = 0)
           /\ (preview args = false -> commit args = false ->
               snd (main args w) = 0)
           /\ (preview args = false -> commit args = true ->
               forall reply, response w = Some reply ->
                 (lower reply <> lit "y" -> snd (main args w) = 0)
                 /\ (lower reply = lit "y" -> git w = CommitOk ->
                     snd (main args w) = 0)
                 /\ (lower reply = lit "y" -> git w <> CommitOk ->
                     snd (main args w) = 1))).
Proof.
  split; [|split].
  - intros E. unfold main, generate_commit_message. rewrite E. reflexivity.
  - intros e E N. unfold main, generate_commit_message. rewrite E.
    destruct e; try reflexivity. contradiction.
  - intros E value. rewrite (main_ended _ _ E). fold value. split.
    + intros [-> | ->]; reflexivity.
    + intros m -> N. apply truthy_iff in N. rewrite N. unfold dispatch.
      split; [|split].
      * intros ->. reflexivity.
      * intros -> ->. reflexivity.
      * intros -> -> reply R. rewrite (do_commit_reply _ _ R).
        destruct (str_eqb (lower reply) (lit "y")) eqn:Y.
        -- apply str_eqb_eq in Y. split; [contradiction|].
           destruct (git w); split; intros; try reflexivity;
             try discriminate; contradiction.
        -- assert (lower reply <> lit "y")
             by (intros Y'; apply str_eqb_eq in Y'; congruence).
           split; [reflexivity|]. split; intros; contradiction.
Qed.

Lemma exit_status_witness :
  snd (main Demo.plain (Demo.world (Demo.raising KeyboardInterrupt))) = 130
  /\ snd (main Demo.plain (Demo.world (Demo.raising CLINotFoundError))) = 1
  /\ snd (main Demo.plain (Demo.world Demo.fenced_only)) = 1
  /\ snd (main Demo.commit_and_copy
            (Demo.world_of Demo.good (Some (lit "n")) CommitOk)) = 0
  /\ snd (main Demo.commit_and_copy
            (Demo.world_of Demo.good (Some (lit "Y")) CalledProcessError))
     = 1.
Proof.
  split; [|split; [|split; [|split]]].
  - apply (proj1 (exit_status Demo.plain
                    (Demo.world (Demo.raising KeyboardInterrupt)))).
    reflexivity.
  - apply (proj1 (proj2 (exit_status Demo.plain
                           (Demo.world (Demo.raising CLINotFoundError))))
             CLINotFoundError); [reflexivity|discriminate].
  - destruct (exit_status Demo.plain (Demo.world Demo.fenced_only))
      as [_ [_ C]].
    apply (proj1 (C eq_refl)). right. reflexivity.
  - destruct (exit_status Demo.commit_and_copy
                (Demo.world_of Demo.good (Some (lit "n")) CommitOk))
      as [_ [_ C]].
    destruct (C eq_refl) as [_ D].
    destruct (D (lit "fix: it's done") eq_refl) as [_ [_ G]];
      [discriminate|].
    apply (proj1 (G eq_refl eq_refl (lit "n") eq_refl)). discriminate.
  - destruct (exit_status Demo.commit_and_copy
                (Demo.world_of Demo.good (Some (lit "Y"))
                   CalledProcessError))
      as [_ [_ C]].
    destruct (C eq_refl) as [_ D].
    destruct (D (lit "fix: it's done") eq_refl) as [_ [_ G]];
      [discriminate|].
    apply (proj2 (proj2 (G eq_refl eq_refl (lit "Y") eq_refl)));
      [reflexivity|discriminate].
Defined.

(** C6.  With a message in hand, [--commit] set and [--preview] not set,
    [git commit] is run exactly when the reply lowercases to [y], that
    is, when it is [y] or [Y]; any other reply runs no commit and the run
    ends with exit status 0. *)
Theorem confirmation_gate
  (args : Args) (w : World) (out : list Effect) (m reply : str) :
  generate_commit_message (session w) = (out, Returned (Some m)) ->
  m <> [] ->
  preview args = false -> commit args = true ->
  response w = Some reply ->
  ((exists m', In (GitCommit m') (fst (main args w)))
   <-> lower reply = lit "y")
  /\ (lower reply = lit "y" <-> reply = lit "y" \/ reply = lit "Y")
  /\ (lower reply <> lit "y" ->
      snd (main args w) = 0
      /\ Forall (fun e => is_commit e = false) (fst (main args w))).
Proof.
  intros G N P C R.
  destruct (main_message args w G N) as [_ ->].
  unfold dispatch. rewrite P, C, (do_commit_reply _ _ R).
  assert (K : Forall (fun e => is_commit e = false)
                (if copy args then copy_to_clipboard w m else [])).
  { destruct (copy args); [|constructor].
    eapply Forall_impl; [|apply clipboard_effects]. intros e H. apply H. }
  split; [|split; [apply lower_y|]].
  - destruct (str_eqb (lower reply) (lit "y")) eqn:Y.
    + apply str_eqb_eq in Y. split; [auto|]. intros _. exists m.
      destruct (git w); simpl; right; apply in_or_app; right; simpl; auto.
    + split; [|intros Y'; apply str_eqb_eq in Y'; congruence].
      intros [m' [I|I]]; [discriminate|]. simpl in I.
      apply in_app_or in I as [I|[I|[I|[]]]]; try discriminate.
      rewrite Forall_forall in K. apply K in I. discriminate.
  - intros Y. destruct (str_eqb (lower reply) (lit "y")) eqn:Y'.
    + apply str_eqb_eq in Y'. contradiction.
    + simpl. split; auto. constructor; auto.
      apply Forall_app. split; auto.
Qed.

Lemma confirmation_gate_witness :
  snd (main Demo.commit_and_copy
         (Demo.world_of Demo.good (Some (lit "yes")) CommitOk)) = 0
  /\ Forall (fun e => is_commit e = false)
       (fst (main Demo.commit_and_copy
               (Demo.world_of Demo.good (Some (lit "yes")) CommitOk))).
Proof.
  refine (proj2 (proj2 (@confirmation_gate Demo.commit_and_copy
            (Demo.world_of Demo.good (Some (lit "yes")) CommitOk)
            [] (lit "fix: it's done") (lit "yes")
            eq_refl _ eq_refl eq_refl eq_refl)) _); discriminate.
Defined.

(** C7.  With [--preview] set nothing touches the clipboard, asks for
    confirmation or commits, whatever the other flags say; a run that got
    a message shows it, reports the preview and ends with status 0. *)
Theorem preview_only (args : Args) (w : World) :
  preview args = true ->
  Forall (fun e => side_effect e = false) (fst (main args w))
  /\ forall out m,
       generate_commit_message (session w) = (out, Returned (Some m)) ->
       m <> [] ->
       main args w = (out ++ [ShowMessage m; PreviewComplete], 0).
Proof.
  intros P. split.
  - pose proof (generate_quiet (session w)) as Q.
    unfold main. destruct (generate_commit_message (session w)) as [out r].
    simpl in Q.
    assert (Q' : Forall (fun e => side_effect e = false) out)
      by (eapply Forall_impl; [|exact Q]; intros e H; apply H).
    destruct r as [[m|]|]; [destruct (truthy m)|..];
      try (unfold dispatch; rewrite P); simpl;
      apply Forall_app; split; auto; repeat constructor.
  - intros out m G N. destruct (main_message args w G N) as [-> ->].
    unfold dispatch. rewrite P. reflexivity.
Qed.

Lemma preview_only_witness :
  main Demo.preview_all (Demo.world Demo.good)
  = ([ShowMessage (lit "fix: it's done"); PreviewComplete], 0).
Proof.
  refine (proj2 (@preview_only Demo.preview_all (Demo.world Demo.good)
                   eq_refl) [] (lit "fix: it's done") eq_refl _).
  discriminate.
Defined.

(** C8.  With neither [--commit] nor [--preview], the one command line
    suggested is [git commit -m '...'] around the message in which every
    single quote is replaced by the four characters ['\''] and every
    other character is kept; [it's] becomes [it'\''s]. *)
Theorem suggestion_is_quoted
  (args : Args) (w : World) (out : list Effect) (m : str) :
  generate_commit_message (session w) = (out, Returned (Some m)) ->
  m <> [] ->
  preview args = false -> commit args = false ->
  In (SuggestCommand (lit "   git commit -m '" ++ quote_escape m ++ lit "'"))
     (fst (main args w))
  /\ (forall line, In (SuggestCommand line) (fst (main args w)) ->
        line = lit "   git commit -m '" ++ quote_escape m ++ lit "'")
  /\ forall a b, m = a ++ lit "it's" ++ b ->
       quote_escape m = quote_escape a ++ lit "it'\''s" ++ quote_escape b.
Proof.
  intros G N P C. split; [|split].
  - destruct (main_message args w G N) as [_ ->].
    unfold dispatch. rewrite P, C. cbn [fst]. right.
    apply in_or_app. right. left. unfold command_line.
    rewrite escape_spec. reflexivity.
  - intros line I. destruct (main_message args w G N) as [_ E].
    rewrite E in I. pose proof (dispatch_effects args w m) as D.
    rewrite Forall_forall in D. destruct (D _ I) as [_ Q].
    rewrite (Q line eq_refl). unfold command_line.
    rewrite escape_spec. reflexivity.
  - intros a b ->. rewrite !quote_escape_app. reflexivity.
Qed.

Lemma suggestion_is_quoted_witness :
  In (SuggestCommand (lit "   git commit -m 'fix: it'\''s done'"))
     (fst (main Demo.plain (Demo.world Demo.good))).
Proof.
  refine (proj1 (@suggestion_is_quoted Demo.plain (Demo.world Demo.good)
                   [] (lit "fix: it's done") eq_refl _ eq_refl eq_refl)).
  discriminate.
Defined.

(** C10.  Every message a run shows, copies or commits, and the message
    inside every command line it suggests, is non-empty, has no blank
    line, no line opening a fence, no line ending in whitespace, and
    neither starts nor ends with whitespace. *)
Theorem acted_message_is_clean (args : Args) (w : World) (e : Effect) :
  In e (fst (main args w)) ->
  (forall m, carried e = Some m -> post_cleanup m)
  /\ (forall line, e = SuggestCommand line ->
        exists m, line = command_line (escape m) /\ post_cleanup m).
Proof.
  pose proof (generate_quiet (session w)) as Q.
  unfold main.
  destruct (generate_commit_message (session w)) as [out r] eqn:G.
  simpl in Q. rewrite Forall_forall in Q.
  assert (quiet : forall x, In e (out ++ [x]) ->
                    carried x = None -> (forall q, x <> SuggestCommand q) ->
                    (forall m, carried e = Some m -> post_cleanup m)
                    /\ (forall line, e = SuggestCommand line ->
                          exists m, line = command_line (escape m)
                                    /\ post_cleanup m)).
  { intros x I Cx Sx. apply in_app_or in I as [I|[<-|[]]].
    - destruct (Q _ I) as [Ce [_ [_ Se]]].
      split; [intros m Em; congruence|intros q Eq; destruct (Se q Eq)].
    - split; [intros m Em; congruence|intros q Eq; destruct (Sx q Eq)]. }
  destruct r as [[m|]|]; [destruct (truthy m) eqn:T|..];
    try (intros I; apply (quiet _ I); [reflexivity|discriminate]).
  pose proof (dispatch_effects args w m) as D.
  destruct (dispatch args w m) as [acts code]. cbn [fst] in *.
  rewrite Forall_forall in D.
  assert (PC : post_cleanup m)
    by (apply (generate_post _ G), truthy_iff, T).
  intros I. apply in_app_or in I as [I|I].
  - destruct (Q _ I) as [Ce [_ [_ Se]]].
    split; [intros m' Em; congruence|intros q Eq; destruct (Se q Eq)].
  - destruct (D _ I) as [Dc Ds]. split.
    + intros m' Em. rewrite (Dc _ Em). exact PC.
    + intros line El. exists m. split; auto.
Qed.

Lemma acted_message_is_clean_witness :
  post_cleanup (lit "fix: it's done").
Proof.
  refine (proj1 (@acted_message_is_clean Demo.commit_and_copy
                   (Demo.world Demo.good)
                   (GitCommit (lit "fix: it's done")) _) _ eq_refl).
  vm_compute. auto 10.
Defined.

(** ** More on the event loop *)

Section LoopMore.

Lemma loop_unsuccessful (ms : list Message) (st : LoopState) :
  Forall (fun m => successful m = false) ms ->
  commit_message (fold_left on_message ms st) = commit_message st.
Proof.
  intros H. revert st. induction H as [|m ms Hm _ IH]; intros st; auto.
  simpl. rewrite IH. destruct m as [content|[]|]; try reflexivity.
  discriminate.
Qed.

Lemma fallback_untaken (prev : option str) (l : list str) :
  existsb takes l = false -> fallback prev l = prev.
Proof.
  induction l as [|t l IH]; auto.
  cbn [existsb fallback]. intros H. apply orb_false_elim in H as [T E].
  unfold takes in T. rewrite T. auto.
Qed.

Lemma fallback_taken (prev : option str) (l : list str) :
  existsb takes l = true -> fallback prev l = fallback None l.
Proof.
  induction l as [|t l IH]; [discriminate|].
  cbn [existsb fallback]. intros H.
  destruct (takes t) eqn:T; unfold takes in T; rewrite T; auto.
Qed.

Lemma existsb_rev' (l : list str) : existsb takes (rev l) = existsb takes l.
Proof.
  induction l as [|t l IH]; auto. simpl.
  rewrite existsb_app, IH. simpl. rewrite orb_false_r. apply orb_comm.
Qed.

Lemma candidate_fresh (prev : option str) (log : list str) :
  findable log = true -> candidate prev log = candidate None log.
Proof.
  unfold findable, candidate. intros F.
  destruct (contains MARKER (join NL log)) eqn:C.
  - apply contains_iff in C. apply occurs_partition in C as [a [b P]].
    unfold split1. rewrite P. reflexivity.
  - simpl in F. apply fallback_taken. rewrite existsb_rev'. exact F.
Qed.

Lemma candidate_kept (prev : option str) (log : list str) :
  findable log = false -> candidate prev log = prev.
Proof.
  unfold findable, candidate. intros F.
  apply orb_false_elim in F as [C E]. rewrite C.
  apply fallback_untaken. rewrite existsb_rev'. exact E.
Qed.

Lemma join_app_prefix (l1 l2 : list str) :
  l1 <> [] -> exists t, join NL (l1 ++ l2) = join NL l1 ++ t.
Proof.
  induction l1 as [|a l1 IH]; [contradiction|]. intros _.
  destruct l1 as [|b l1].
  - destruct l2 as [|c l2].
    + exists []. simpl. rewrite app_nil_r. reflexivity.
    + exists (NL ++ join NL (c :: l2)). reflexivity.
  - destruct IH as [t E]; [discriminate|].
    exists t. cbn [app] in *. unfold NL in *.
    rewrite !(@join_cons nl a) by discriminate.
    rewrite E, <- app_assoc. reflexivity.
Qed.

Lemma findable_app (l1 l2 : list str) :
  findable l1 = true -> findable (l1 ++ l2) = true.
Proof.
  unfold findable. intros F. apply orb_true_iff in F as [C|E].
  - apply orb_true_iff. left. destruct l1 as [|a l1]; [discriminate C|].
    destruct (@join_app_prefix (a :: l1) l2) as [t ->]; [discriminate|].
    apply contains_iff in C as [x [y C]]. apply contains_iff.
    exists x, (y ++ t). unfold cut_at in *. rewrite C, <- !app_assoc.
    reflexivity.
  - rewrite existsb_app, E. simpl. apply orb_true_r.
Qed.

Lemma texts_app (a b : list Message) : texts (a ++ b) = texts a ++ texts b.
Proof. apply flat_map_app. Qed.

(** A message is held only once the log holds something to extract. *)
Lemma loop_findable (ms : list Message) :
  commit_message (run_loop ms) <> None -> findable (texts ms) = true.
Proof.
  induction ms as [|m ms IH] using rev_ind; [intros H; contradiction H; auto|].
  rewrite loop_snoc, texts_app.
  destruct m as [content|[]|]; cbn [on_message commit_message]; intros H;
    try (apply findable_app; auto).
  destruct (findable (texts ms)) eqn:F; [reflexivity|].
  exfalso. apply H. unfold extract.
  rewrite run_loop_texts, (candidate_kept _ _ F).
  destruct (commit_message (run_loop ms)); auto.
  discriminate IH. discriminate.
Qed.

(** The value of the loop is a fresh extraction at the last successful
    result. *)
Lemma loop_decided (ms tail : list Message) :
  Forall (fun m => successful m = false) tail ->
  commit_message (run_loop (ms ++ ResultMessage false :: tail))
  = extract None (texts ms).
Proof.
  intros H. unfold run_loop.
  change (ms ++ ResultMessage false :: tail)
    with (ms ++ [ResultMessage false] ++ tail).
  rewrite app_assoc, fold_left_app, (loop_unsuccessful _ H).
  fold (run_loop (ms ++ [ResultMessage false])). rewrite loop_snoc.
  cbn [on_message commit_message]. rewrite run_loop_texts.
  unfold extract. destruct (findable (texts ms)) eqn:F.
  - rewrite (candidate_fresh _ _ F). reflexivity.
  - destruct (commit_message (run_loop ms)) eqn:E; auto.
    pose proof (@loop_findable ms) as L. rewrite E in L.
    rewrite L in F; [discriminate|discriminate].
Qed.

End LoopMore.

(** X1.  The message [generate_commit_message] returns for a session
    that ends well is the extraction, from nothing, of the text received
    before the last successful [ResultMessage]: neither the messages after
    it nor the results before it have any influence. *)
Theorem last_result_decides (s : Session) (ms tail : list Message) :
  ending s = None ->
  messages s = ms ++ ResultMessage false :: tail ->
  Forall (fun m => successful m = false) tail ->
  generate_commit_message s = ([], Returned (extract None (texts ms))).
Proof.
  intros E M H. unfold generate_commit_message.
  rewrite E, M, (loop_decided _ H). reflexivity.
Qed.

Lemma last_result_decides_witness :
  generate_commit_message Runs.twice = ([], Returned (Some (lit "two"))).
Proof.
  refine (@last_result_decides Runs.twice Runs.twice_chat Runs.twice_tail
            eq_refl eq_refl _).
  repeat constructor.
Defined.

(** X2.  A session that ends well without a successful [ResultMessage]
    yields no message, whatever the agent said, the marker included: the
    run prints the failure notice and exits with status 1. *)
Theorem no_result_no_message (args : Args) (w : World) :
  ending (session w) = None ->
  Forall (fun m => successful m = false) (messages (session w)) ->
  main args w = ([ErrFailedToGenerate], 1).
Proof.
  intros E H. rewrite (main_ended _ _ E). unfold run_loop.
  rewrite (loop_unsuccessful _ H). reflexivity.
Qed.

Lemma no_result_no_message_witness :
  main Demo.commit_and_copy
    (Demo.world {| messages := Demo.fenced_chat ++ [ResultMessage true];
                   ending := None |})
  = ([ErrFailedToGenerate], 1).
Proof.
  apply no_result_no_message; [reflexivity|repeat constructor].
Defined.

(** ** More on the run *)

Section RunMore.

Lemma dispatch_shows (args : Args) (w : World) (m : str) :
  exists rest, fst (dispatch args w m) = ShowMessage m :: rest.
Proof.
  unfold dispatch. destruct (preview args); [simpl; eauto|].
  destruct (commit args); [destruct (do_commit w m)|]; simpl; eauto.
Qed.

(** The three ways a run can go. *)
Lemma main_cases (args : Args) (w : World) :
  (exists e, ending (session w) = Some e /\ main args w = notices e)
  \/ (ending (session w) = None
      /\ main args w = ([ErrFailedToGenerate], 1))
  \/ (exists m, ending (session w) = None /\ m <> [] /\ post_cleanup m
                /\ main args w = dispatch args w m).
Proof.
  destruct (ending (session w)) as [e|] eqn:E.
  - left. exists e. split; auto.
    unfold main, generate_commit_message. rewrite E.
    destruct e; reflexivity.
  - right. rewrite (main_ended _ _ E).
    destruct (commit_message (run_loop (messages (session w))))
      as [m|] eqn:V; auto.
    destruct (truthy m) eqn:T; auto. right.
    apply truthy_iff in T. exists m.
    split; [reflexivity|]. split; [exact T|]. split; [|reflexivity].
    apply (@generate_post (session w) [] m); auto.
    unfold generate_commit_message. rewrite E, V. reflexivity.
Qed.


End RunMore.

(** X3.  When the session raises, at whatever point of the stream and
    whatever was extracted before, the run prints the notice of that error
    and nothing else happens: an interrupt gives the interrupt notice and
    status 130, any other error its own notice followed by the failure
    notice and status 1. *)
Theorem raised_discards_message (args : Args) (w : World) (e : Raised) :
  ending (session w) = Some e -> main args w = notices e.
Proof.
  intros E. unfold main, generate_commit_message. rewrite E.
  destruct e; reflexivity.
Qed.

Lemma raised_discards_message_witness :
  main Demo.commit_and_copy
    (Demo.world {| messages := messages Demo.good;
                   ending := Some ProcessError |})
  = ([ErrProcessError; ErrFailedToGenerate], 1).
Proof.
  apply (@raised_discards_message Demo.commit_and_copy
           (Demo.world {| messages := messages Demo.good;
                          ending := Some ProcessError |}) ProcessError).
  reflexivity.
Defined.

(** X4.  A run that exits with status 0 has shown a message first, and
    that message satisfies the post-cleanup invariant; the session ended
    without raising. *)
Theorem success_shows_message (args : Args) (w : World) :
  snd (main args w) = 0 ->
  exists m rest,
    fst (main args w) = ShowMessage m :: rest
    /\ post_cleanup m /\ ending (session w) = None.
Proof.
  destruct (main_cases args w) as [[e [_ ->]]|[[_ ->]|[m [E [_ [P ->]]]]]].
  - destruct e; discriminate.
  - discriminate.
  - intros _. destruct (dispatch_shows args w m) as [rest R].
    exists m, rest. auto.
Qed.

Lemma success_shows_message_witness :
  exists m rest,
    fst (main Demo.plain (Demo.world Demo.good)) = ShowMessage m :: rest
    /\ post_cleanup m /\ ending (session (Demo.world Demo.good)) = None.
Proof.
  apply (@success_shows_message Demo.plain (Demo.world Demo.good)).
  reflexivity.
Defined.


Section DispatchMore.

Lemma clipboard_only (w : World) (m : str) :
  Forall (fun e => clipboard_effect e = true /\ mode_marker e = false)
    (copy_to_clipboard w m).
Proof.
  unfold copy_to_clipboard.
  destruct (system w), (clipboard_ok w); repeat constructor.
Qed.

Lemma filter_none {A : Type} (f g : A -> bool) (l : list A) :
  Forall (fun x => g x = true /\ f x = false) l ->
  filter (fun x => negb (g x)) l = [] /\ filter f l = [].
Proof.
  induction 1 as [|x l [G F] _ [IH1 IH2]]; simpl; auto.
  rewrite G, F. auto.
Qed.

Lemma copied_filtered (b : bool) (w : World) (m : str) :
  filter (fun e => negb (clipboard_effect e))
    (if b then copy_to_clipboard w m else []) = []
  /\ filter mode_marker (if b then copy_to_clipboard w m else []) = [].
Proof.
  destruct b; [|auto]. apply filter_none, clipboard_only.
Qed.

Lemma main_held (args : Args) (w : World) (m : str) :
  ending (session w) = None ->
  commit_message (run_loop (messages (session w))) = Some m ->
  m <> [] ->
  main args w = dispatch args w m.
Proof.
  intros E V N. rewrite (main_ended _ _ E), V.
  apply truthy_iff in N. rewrite N. reflexivity.
Qed.

End DispatchMore.

(** X6.  The clipboard step is never fatal: the [--copy] flag, the
    platform and the outcome of the clipboard tool change neither the exit
    status nor anything the run does besides the clipboard step itself. *)
Theorem clipboard_never_fatal
  (args : Args) (w : World) (b : bool) (p : Platform) (ok : bool) :
  snd (main (with_copy args b) (with_clipboard w p ok)) = snd (main args w)
  /\ filter (fun e => negb (clipboard_effect e))
       (fst (main (with_copy args b) (with_clipboard w p ok)))
     = filter (fun e => negb (clipboard_effect e)) (fst (main args w)).
Proof.
  unfold main. cbn [session with_clipboard].
  destruct (generate_commit_message (session w)) as [out [[m|]|]]; auto.
  destruct (truthy m); auto.
  unfold dispatch. cbn [preview commit copy with_copy].
  destruct (preview args); auto.
  assert (D : do_commit (with_clipboard w p ok) m = do_commit w m)
    by reflexivity.
  rewrite D.
  destruct (copied_filtered b (with_clipboard w p ok) m) as [F1 _].
  destruct (copied_filtered (copy args) w m) as [F2 _].
  destruct (commit args); [destruct (do_commit w m) as [acts code]|];
    cbn [fst snd]; (split; [reflexivity|]);
    rewrite !filter_app; cbn [filter clipboard_effect negb];
    rewrite !filter_app, F1, F2; reflexivity.
Qed.

(** X7.  A run handles one message only: what it copies to the
    clipboard, what it passes to [git commit] and what it quotes in the
    suggested command is the very message it showed. *)
Theorem one_message_per_run
  (args : Args) (w : World) (e : Effect) (m : str) :
  In e (fst (main args w)) -> carried e = Some m ->
  (forall e' m', In e' (fst (main args w)) -> carried e' = Some m' ->
                 m' = m)
  /\ (forall line, In (SuggestCommand line) (fst (main args w)) ->
                   line = command_line (escape m)).
Proof.
  destruct (main_cases args w)
    as [[x [_ ->]]|[[_ ->]|[m0 [_ [_ [_ ->]]]]]].
  - destruct x; simpl; intuition (subst; discriminate).
  - simpl; intuition (subst; discriminate).
  - pose proof (dispatch_effects args w m0) as D.
    rewrite Forall_forall in D. intros I C.
    destruct (D _ I) as [K _]. rewrite (K _ C) in *. split.
    + intros e' m' I' C'. apply (proj1 (D _ I') _ C').
    + intros line I'. apply (proj2 (D _ I') line eq_refl).
Qed.

Lemma one_message_per_run_witness :
  lit "   git commit -m 'fix: it'\''s done'"
  = command_line (escape (lit "fix: it's done")).
Proof.
  refine (proj2 (@one_message_per_run Demo.plain (Demo.world Demo.good)
                   (ShowMessage (lit "fix: it's done"))
                   (lit "fix: it's done") _ eq_refl)
            (lit "   git commit -m 'fix: it'\''s done'") _).
  - left. reflexivity.
  - right. left. reflexivity.
Defined.

(** X8.  A run that holds a message goes exactly one way: it reports the
    preview when [--preview] is set, otherwise asks for confirmation when
    [--commit] is set, otherwise suggests the command; never two of
    these, never none. *)
Theorem one_mode_per_run (args : Args) (w : World) (m : str) :
  ending (session w) = None ->
  commit_message (run_loop (messages (session w))) = Some m ->
  m <> [] ->
  filter mode_marker (fst (main args w))
  = [if preview args then PreviewComplete
     else if commit args then AskConfirm
          else SuggestCommand (command_line (escape m))].
Proof.
  intros E V N. rewrite (main_held args w E V N).
  unfold dispatch. destruct (preview args); [reflexivity|].
  destruct (copied_filtered (copy args) w m) as [_ F].
  destruct (commit args).
  - unfold do_commit.
    destruct (response w) as [r|];
      [destruct (negb _); [|destruct (git w)]|];
      cbn [fst filter mode_marker]; rewrite filter_app, F; reflexivity.
  - cbn [fst filter mode_marker]. rewrite filter_app, F. reflexivity.
Qed.

Lemma one_mode_per_run_witness :
  filter mode_marker (fst (main Demo.commit_and_copy (Demo.world Demo.good)))
  = [AskConfirm].
Proof.
  refine (@one_mode_per_run Demo.commit_and_copy (Demo.world Demo.good)
            (lit "fix: it's done") eq_refl eq_refl _).
  discriminate.
Defined.



(** ** More on the cleanup *)

Section CleanupMore.

Lemma survivors_app (l1 l2 : list str) (inside : bool) :
  survivors inside (l1 ++ l2)
  = survivors inside l1 ++ survivors (xorb inside (fenced l1)) l2.
Proof.
  revert inside. induction l1 as [|l l1 IH]; intros inside.
  - simpl. unfold fenced. simpl. rewrite xorb_false_r. reflexivity.
  - cbn [app survivors]. rewrite fenced_cons.
    destruct (is_fence l).
    + rewrite IH. f_equal. f_equal.
      destruct inside, (fenced l1); reflexivity.
    + rewrite xorb_false_l.
      destruct (inside || blank l); rewrite IH; reflexivity.
Qed.

Lemma survivors_inside (ls : list str) :
  Forall (fun l => is_fence l = false) ls -> survivors true ls = [].
Proof.
  induction 1 as [|l ls F _ IH]; auto. simpl. rewrite F. exact IH.
Qed.

Lemma post_cleanup_tidy (m : str) :
  post_cleanup m -> Forall tidy (split nl m).
Proof.
  intros [N B F R _ _]. pose proof (split_lines_free nl m) as O.
  rewrite Forall_forall in *. intros l I. constructor.
  - apply O, I.
  - destruct (blank l) eqn:E; auto.
    apply blank_iff in E. destruct (B l I E).
  - apply rstrip_fixed, R, I.
  - destruct (is_fence l) eqn:E; auto.
    apply startswith_iff in E. destruct (F l I E).
Qed.

Lemma length_lstrip (s : str) : length (lstrip s) <= length s.
Proof.
  destruct (lstrip_split s) as [ws [E _]]. rewrite E at 2.
  rewrite length_app. lia.
Qed.

Lemma length_rstrip (s : str) : length (rstrip s) <= length s.
Proof.
  destruct (rstrip_split s) as [ws [E _]]. rewrite E at 2.
  rewrite length_app. lia.
Qed.

Lemma length_strip (s : str) : length (strip s) <= length s.
Proof.
  unfold strip. pose proof (length_rstrip (lstrip s)).
  pose proof (length_lstrip s). lia.
Qed.

Lemma length_join_cons (l : str) (ls : list str) :
  length (join NL ls) <= length (join NL (l :: ls))
  /\ length l <= length (join NL (l :: ls))
  /\ (ls <> [] ->
      length (join NL (l :: ls)) = length l + 1 + length (join NL ls)).
Proof.
  destruct ls as [|l2 ls].
  - simpl. repeat split; try lia. contradiction.
  - unfold NL. rewrite (@join_cons nl l) by discriminate.
    rewrite length_app. cbn [length]. repeat split; lia.
Qed.

Lemma length_survivors (ls : list str) (inside : bool) :
  length (join NL (survivors inside ls)) <= length (join NL ls).
Proof.
  revert inside. induction ls as [|l ls IH]; intros inside; auto.
  destruct (length_join_cons l ls) as [A [B C]].
  cbn [survivors].
  destruct (is_fence l); [specialize (IH (negb inside)); lia|].
  destruct (inside || blank l); [specialize (IH inside); lia|].
  specialize (IH inside). pose proof (length_rstrip l).
  destruct (survivors inside ls) as [|k ks] eqn:S.
  - change (join NL [rstrip l]) with (rstrip l). lia.
  - destruct (length_join_cons (rstrip l) (k :: ks)) as [_ [_ C']].
    rewrite C' by discriminate.
    destruct ls as [|l2 ls]; [discriminate S|].
    rewrite C by discriminate. lia.
Qed.

Lemma cleanup_spec_one_line (c : str) :
  ~ In nl c -> is_fence c = false -> cleanup_spec c = strip c.
Proof.
  intros O F. unfold cleanup_spec.
  rewrite (@split_free nl c O). cbn [survivors]. rewrite F. cbn [orb].
  destruct (blank c) eqn:B.
  - apply strip_nil in B. rewrite B. reflexivity.
  - cbn [join]. apply strip_rstrip.
Qed.

Lemma strip_incl (s : str) (x : ascii) : In x (strip s) -> In x s.
Proof. intros I. apply lstrip_incl, rstrip_incl, I. Qed.

End CleanupMore.

(** X10.  The messages the cleanup leaves unchanged are exactly the
    well-formed ones: a non-empty string is a fixed point of the cleanup if
    and only if it satisfies the post-cleanup invariant. *)
Theorem cleanup_fixed_points (m : str) :
  m <> [] -> (clean_markdown m = m <-> post_cleanup m).
Proof.
  intros N. rewrite clean_markdown_spec. split.
  - intros E. rewrite <- E. apply cleanup_spec_post. rewrite E. exact N.
  - intros P. unfold cleanup_spec.
    rewrite (survivors_fixed (post_cleanup_tidy P)).
    unfold NL. rewrite join_split.
    apply strip_fixed; [apply (pc_no_leading P)|apply (pc_no_trailing P)].
Qed.

Lemma cleanup_fixed_points_witness :
  clean_markdown (lit "feat: x" ++ NL ++ lit "- y") = lit "feat: x" ++ NL ++ lit "- y"
  <-> post_cleanup (lit "feat: x" ++ NL ++ lit "- y").
Proof.
  apply (@cleanup_fixed_points (lit "feat: x" ++ NL ++ lit "- y")).
  discriminate.
Defined.

(** X11.  A candidate of one line that is not a fence marker comes out
    of the cleanup trimmed and otherwise unchanged. *)
Theorem one_line_is_trimmed (c : str) :
  ~ In nl c -> is_fence c = false -> clean_markdown c = strip c.
Proof.
  intros O F. rewrite clean_markdown_spec.
  apply cleanup_spec_one_line; assumption.
Qed.

Lemma one_line_is_trimmed_witness :
  clean_markdown (lit "  fix: use `x` here ") = lit "fix: use `x` here".
Proof.
  apply (@one_line_is_trimmed (lit "  fix: use `x` here ")).
  - intros I. vm_compute in I. intuition discriminate.
  - reflexivity.
Defined.

(** X12.  A fence that is opened and never closed discards everything
    after it: the cleanup gives what it gives for the lines before the
    opening marker alone. *)
Theorem unclosed_fence_drops_rest (c : str) (before rest : list str)
        (opening : str) :
  split nl c = before ++ opening :: rest ->
  fenced before = false -> is_fence opening = true ->
  Forall (fun l => is_fence l = false) rest ->
  clean_markdown c
  = match before with
    | [] => []
    | _ :: _ => clean_markdown (join NL before)
    end.
Proof.
  intros S E F R. rewrite !clean_markdown_spec. unfold cleanup_spec.
  rewrite S, survivors_app, E. cbn [xorb survivors]. rewrite F.
  cbn [negb]. rewrite (survivors_inside R), app_nil_r.
  destruct before as [|b bs]; [reflexivity|].
  rewrite split_join; [reflexivity|discriminate|].
  pose proof (split_lines_free nl c) as O. rewrite S in O.
  apply Forall_app in O. apply O.
Qed.

Lemma unclosed_fence_drops_rest_witness :
  clean_markdown (lit "fix: a" ++ NL ++ lit "```diff" ++ NL ++ lit "+ b"
                    ++ NL ++ lit "more")
  = clean_markdown (join NL [lit "fix: a"]).
Proof.
  apply (@unclosed_fence_drops_rest _ [lit "fix: a"]
           [lit "+ b"; lit "more"] (lit "```diff"));
    try reflexivity.
  repeat constructor.
Defined.

(** X13.  The cleanup never lengthens its input. *)
Theorem cleanup_never_longer (c : str) :
  length (clean_markdown c) <= length c.
Proof.
  rewrite clean_markdown_spec. unfold cleanup_spec.
  pose proof (length_strip (join NL (survivors false (split nl c)))).
  pose proof (length_survivors (split nl c) false) as L.
  unfold NL in L at 2. rewrite join_split in L. lia.
Qed.

(** ** More on the marker *)

Section MarkerMore.

Variable c : ascii.
Variable M : str.
Hypothesis M_free : ~ In c M.
Hypothesis M_not_nil : M <> [].

Lemma prefix_before (x y : str) :
  is_prefix M (x ++ c :: y) -> is_prefix M x.
Proof.
  clear M_not_nil. revert x M_free.
  induction M as [|a M' IH]; intros x F [r E].
  - exists x. reflexivity.
  - destruct x as [|b x]; simpl in E; injection E as -> E.
    + destruct F. left. reflexivity.
    + destruct (IH x) as [r' ->].
      * intros I. apply F. right. exact I.
      * exists r. exact E.
      * exists r'. reflexivity.
Qed.

Lemma occurs_cons (a : ascii) (s : str) : occurs M s -> occurs M (a :: s).
Proof.
  intros [p [q E]]. exists (a :: p), q. unfold cut_at in *. simpl.
  congruence.
Qed.

Lemma partition_skip (x y : str) :
  ~ occurs M x ->
  partition M (x ++ c :: y)
  = match partition M y with
    | Some (a, b) => Some (x ++ c :: a, b)
    | None => None
    end.
Proof.
  induction x as [|d x IH]; intros N.
  - cbn [app partition].
    assert (S : startswith M (c :: y) = false).
    { destruct M as [|a M']; [contradiction|]. simpl.
      destruct (Ascii.eqb_spec a c) as [->|]; auto.
      destruct M_free. left. reflexivity. }
    rewrite S. reflexivity.
  - cbn [app partition].
    assert (S : startswith M (d :: x ++ c :: y) = false).
    { apply not_true_is_false. intros S. apply startswith_iff in S.
      apply (prefix_before (d :: x)) in S as [r E].
      apply N. exists [], r. exact E. }
    rewrite S, IH.
    + destruct (partition M y) as [[a b]|]; reflexivity.
    + intros O. apply N, occurs_cons, O.
Qed.

End MarkerMore.

Section MarkerApp.

Lemma startswith_app (p s t : str) :
  length p <= length s -> startswith p (s ++ t) = startswith p s.
Proof.
  revert s. induction p as [|a p IH]; intros s L; auto.
  destruct s as [|b s]; simpl in *; [lia|].
  rewrite IH by lia. reflexivity.
Qed.

Lemma partition_length (sep s a b : str) :
  partition sep s = Some (a, b) ->
  length s = length a + length sep + length b.
Proof.
  intros P. destruct (partition_first _ _ P) as [C _].
  unfold cut_at in C. rewrite C, !length_app. lia.
Qed.

Lemma partition_app (sep s t a b : str) :
  partition sep s = Some (a, b) ->
  partition sep (s ++ t) = Some (a, b ++ t).
Proof.
  revert a b. induction s as [|d s IH]; intros a b P.
  - pose proof (partition_length _ _ P) as L. simpl in L.
    destruct sep; [|simpl in L; lia].
    destruct a; [|simpl in L; lia]. destruct b; [|simpl in L; lia].
    destruct t; reflexivity.
  - pose proof (partition_length _ _ P) as L.
    cbn [partition] in P. cbn [app partition].
    change (d :: s ++ t) with ((d :: s) ++ t).
    destruct (startswith sep (d :: s)) eqn:S.
    + injection P as <- <-.
      rewrite startswith_app, S by (simpl in *; lia).
      rewrite skipn_app.
      replace (length sep - length (d :: s)) with 0 by (simpl in *; lia).
      reflexivity.
    + destruct (partition sep s) as [[a' b']|] eqn:Q; [|discriminate].
      injection P as <- <-.
      pose proof (partition_length _ _ Q).
      rewrite startswith_app, S by (simpl in *; lia).
      rewrite (IH _ _ eq_refl). reflexivity.
Qed.

Lemma join_app (l1 l2 : list str) :
  l1 <> [] -> l2 <> [] ->
  join NL (l1 ++ l2) = join NL l1 ++ nl :: join NL l2.
Proof.
  intros N1 N2. induction l1 as [|a l1 IH]; [contradiction|].
  destruct l1 as [|b l1].
  - destruct l2; [contradiction|]. reflexivity.
  - cbn [app] in *. unfold NL in *.
    rewrite !(@join_cons nl a) by discriminate.
    rewrite IH by discriminate. rewrite <- app_assoc. reflexivity.
Qed.

Lemma join_tail (e : str) (later : list str) :
  exists t, forall x, join NL (x :: later) = x ++ t.
Proof.
  destruct later as [|l ls].
  - exists []. intros x. simpl. rewrite app_nil_r. reflexivity.
  - exists (nl :: join NL (l :: ls)). reflexivity.
Qed.

Lemma marker_free : ~ In nl MARKER.
Proof. intros I. vm_compute in I. intuition discriminate. Qed.

Lemma marker_not_nil : MARKER <> [].
Proof. discriminate. Qed.

Lemma occurs_dec (sub s : str) : occurs sub s \/ ~ occurs sub s.
Proof.
  destruct (contains sub s) eqn:C.
  - left. apply contains_iff, C.
  - right. apply contains_false, C.
Qed.

Lemma occurs_across (x y : str) :
  occurs MARKER (x ++ nl :: y) <-> occurs MARKER x \/ occurs MARKER y.
Proof.
  split.
  - intros O. destruct (occurs_dec MARKER x) as [Ox|Nx]; auto. right.
    apply occurs_partition in O as [a [b P]].
    rewrite (@partition_skip nl MARKER marker_free marker_not_nil x y Nx)
      in P.
    destruct (partition MARKER y) as [[a' b']|] eqn:Q; [|discriminate].
    exists a', b'. apply (partition_first _ _ Q).
  - intros [[p [q E]]|[p [q E]]]; unfold cut_at in E; rewrite E.
    + exists p, (q ++ nl :: y). unfold cut_at.
      rewrite <- !app_assoc. reflexivity.
    + exists (x ++ nl :: p), q. unfold cut_at.
      rewrite <- app_assoc. reflexivity.
Qed.

Lemma occurs_join (log : list str) :
  occurs MARKER (join NL log) <-> Exists (occurs MARKER) log.
Proof.
  induction log as [|e log IH].
  - split.
    + intros O. apply contains_iff in O. discriminate O.
    + intros E. inversion E.
  - destruct log as [|l ls].
    + simpl. split; [intros O; left; exact O|].
      intros E. inversion E as [? ? O|? ? X]; [exact O|inversion X].
    + unfold NL in *. rewrite (@join_cons nl e) by discriminate.
      rewrite occurs_across, IH. split.
      * intros [O|X]; [left; exact O|right; exact X].
      * intros E. inversion E; auto.
Qed.

(** Where the joined log is cut when [entry] is the first to hold the
    marker. *)
Lemma partition_entry (earlier later : list str) (entry a b : str) :
  Forall (fun e => ~ occurs MARKER e) earlier ->
  first_cut MARKER entry a b ->
  exists before,
    partition MARKER (join NL (earlier ++ entry :: later))
    = Some (before, join NL (b :: later)).
Proof.
  intros N F.
  destruct (@occurs_partition MARKER entry) as [a' [b' P]].
  { exists a, b. apply F. }
  destruct (first_cut_unique (partition_first _ _ P) F) as [-> ->].
  destruct (join_tail entry later) as [t T].
  assert (Q : partition MARKER (join NL (entry :: later))
              = Some (a, join NL (b :: later)))
    by (rewrite !T; apply partition_app, P).
  destruct earlier as [|e0 es]; [exists a; exact Q|].
  assert (NE : ~ occurs MARKER (join NL (e0 :: es))).
  { intros O. apply occurs_join in O. apply Exists_exists in O.
    destruct O as [x [I O]]. rewrite Forall_forall in N.
    apply (N x I O). }
  exists (join NL (e0 :: es) ++ nl :: a).
  rewrite join_app by discriminate.
  rewrite (@partition_skip nl MARKER marker_free marker_not_nil _
             (join NL (entry :: later)) NE), Q.
  reflexivity.
Qed.

End MarkerApp.

(** X14.  The marker is recognised only inside one entry of the log: the
    joined text contains it exactly when some entry does, so a marker cut
    in two by the boundary between text blocks is not seen. *)
Theorem marker_within_one_entry (log : list str) :
  (occurs MARKER (join NL log) <-> Exists (occurs MARKER) log)
  /\ contains MARKER (join NL log) = existsb (contains MARKER) log.
Proof.
  split; [apply occurs_join|].
  destruct (existsb (contains MARKER) log) eqn:X.
  - apply contains_iff, occurs_join, Exists_exists.
    apply existsb_exists in X as [e [I C]].
    exists e. split; [exact I|apply contains_iff, C].
  - apply not_true_is_false. intros C.
    apply contains_iff, occurs_join, Exists_exists in C as [e [I O]].
    assert (existsb (contains MARKER) log = true); [|congruence].
    apply existsb_exists. exists e. split; [exact I|].
    apply contains_iff, O.
Qed.

(** X15.  When the first entry holding the marker is followed by later
    entries, these belong to the candidate too: it is the trimmed text
    made of what follows the marker in that entry and of every later
    entry, joined by newlines. *)
Theorem later_entries_are_included
  (prev : option str) (earlier later : list str) (entry a b : str) :
  Forall (fun e => ~ occurs MARKER e) earlier ->
  first_cut MARKER entry a b ->
  candidate prev (earlier ++ entry :: later)
  = Some (strip (join NL (b :: later))).
Proof.
  intros N F.
  destruct (partition_entry later N F) as [before P].
  apply (candidate_marker _ _ P).
Qed.

Lemma later_entries_are_included_witness :
  candidate None
    ([lit "Looking."] ++ lit "Here: COMMIT_MESSAGE: fix: a" :: [lit "Done!"])
  = Some (lit "fix: a" ++ NL ++ lit "Done!").
Proof.
  refine (@later_entries_are_included None [lit "Looking."] [lit "Done!"]
            (lit "Here: COMMIT_MESSAGE: fix: a") (lit "Here: ")
            (lit " fix: a") _ _).
  - constructor; [|constructor]. apply contains_false. reflexivity.
  - apply partition_first. reflexivity.
Defined.

(** X16.  The log the loop holds is the trimmed text of every text block
    received, in arrival order: tool blocks add nothing, results and
    other messages neither add to it nor reset it, and every entry is
    free of leading and trailing whitespace. *)
Theorem log_is_trimmed_texts (ms : list Message) :
  all_text (run_loop ms) = texts ms
  /\ Forall (fun entry => no_leading_space entry
                          /\ no_trailing_space entry)
       (all_text (run_loop ms)).
Proof.
  split; [apply run_loop_texts|].
  rewrite run_loop_texts. eapply Forall_impl; [|apply texts_trimmed].
  intros t T. unfold trimmed in T. rewrite <- T.
  split; [apply strip_no_leading|apply strip_no_trailing].
Qed.

(** ** More on the escaping *)

Section EscapeMore.

Lemma quote_char_cases (c : ascii) :
  (c = quote /\ quote_char c = lit "'\''")
  \/ (c <> quote /\ quote_char c = [c]).
Proof.
  unfold quote_char. fold quote.
  destruct (Ascii.eqb_spec c quote); auto.
Qed.

Lemma quote_escape_injective (a b : str) :
  quote_escape a = quote_escape b -> a = b.
Proof.
  revert b. induction a as [|c a IH]; intros [|d b]; auto.
  - simpl. destruct (quote_char_cases d) as [[_ ->]|[_ ->]]; discriminate.
  - simpl. destruct (quote_char_cases c) as [[_ ->]|[_ ->]]; discriminate.
  - cbn [quote_escape flat_map]. fold (quote_escape a) (quote_escape b).
    destruct (quote_char_cases c) as [[-> ->]|[Nc ->]];
      destruct (quote_char_cases d) as [[-> ->]|[Nd ->]];
      intros E; simpl in E; injection E; intros; subst;
      try contradiction; f_equal; apply IH; assumption.
Qed.

Lemma quote_escape_length (m : str) :
  length (quote_escape m) = length m + 3 * count_occ ascii_dec m quote.
Proof.
  induction m as [|c m IH]; auto.
  cbn [quote_escape flat_map]. fold (quote_escape m).
  rewrite length_app, IH. cbn [count_occ length].
  destruct (quote_char_cases c) as [[-> ->]|[N ->]].
  - destruct (ascii_dec quote quote); [|contradiction]. simpl. lia.
  - destruct (ascii_dec c quote); [contradiction|]. simpl. lia.
Qed.

End EscapeMore.

(** X17.  The escaping loses nothing: two messages with the same escaped
    form are the same message. *)
Theorem escape_injective (a b : str) : escape a = escape b -> a = b.
Proof. rewrite !escape_spec. apply quote_escape_injective. Qed.

Lemma escape_injective_witness : lit "it's" = lit "it's".
Proof.
  apply (@escape_injective (lit "it's") (lit "it's")). reflexivity.
Defined.

(** X18.  Each single quote costs three more characters and nothing else
    changes the length; a message is left as it is exactly when it holds
    no single quote. *)
Theorem escape_length (m : str) :
  length (escape m) = length m + 3 * count_occ ascii_dec m quote
  /\ (escape m = m <-> ~ In quote m).
Proof.
  rewrite escape_spec. pose proof (quote_escape_length m) as L.
  split; [exact L|]. split.
  - intros E. rewrite E in L.
    apply (count_occ_not_In ascii_dec). lia.
  - intros N. clear L. induction m as [|c m IH]; auto.
    cbn [quote_escape flat_map]. fold (quote_escape m).
    rewrite IH by (intros I; apply N; right; exact I).
    destruct (quote_char_cases c) as [[-> _]|[_ ->]]; [|reflexivity].
    destruct N. left. reflexivity.
Qed.

(** ** The spinner *)

Section SpinnerFacts.

Import Spinner.


Lemma spin_frames (message : text) (n idx : nat) (tail : list bool) :
  spin message (repeat true n ++ tail) idx
  = map (frame_line message) (seq idx n) ++ spin message tail (idx + n).
Proof.
  revert idx. induction n as [|n IH]; intros idx.
  - simpl. rewrite Nat.add_0_r. reflexivity.
  - cbn [repeat app spin seq map]. rewrite IH.
    replace (S idx + n) with (idx + S n) by lia. reflexivity.
Qed.

End SpinnerFacts.


(** X20.  When the loop of [_spin] sees the flag set [n] times and then
    cleared, it writes [n] frame lines, the [k]-th with frame [k mod 10],
    and then the clearing line, once; while the flag has not been seen
    cleared it writes frame lines only.  The frames come round every ten
    turns, and the clearing line blanks as many columns as a frame line
    has characters. *)
Theorem spin_writes (message : Spinner.text) (n : nat) (rest : list bool) :
  Spinner.spin message (repeat true n ++ false :: rest) 0
  = map (Spinner.frame_line message) (seq 0 n)
      ++ [Spinner.clear_line message]
  /\ Spinner.spin message (repeat true n) 0
     = map (Spinner.frame_line message) (seq 0 n)
  /\ (forall k, Spinner.frame_line message (k + 10)
                = Spinner.frame_line message k)
  /\ (forall k, Spinner.clear_line message
                = Spinner.CR
                    :: repeat Spinner.SP
                         (length (Spinner.frame_line message k))
                    ++ [Spinner.CR]).
Proof.
  split; [|split; [|split]].
  - rewrite spin_frames. reflexivity.
  - rewrite <- (app_nil_r (repeat true n)), spin_frames.
    cbn [Spinner.spin]. apply app_nil_r.
  - intros k. unfold Spinner.frame_line.
    change (length Spinner.frames) with 10.
    replace (k + 10) with (k + 1 * 10) by lia.
    rewrite Nat.Div0.mod_add. reflexivity.
  - intros k. unfold Spinner.clear_line, Spinner.frame_line.
    cbn [length]. replace (length message + 3) with (S (S (S (length message))))
      by lia. reflexivity.
Qed.

(** ** Whole runs *)

Section WholeRuns.

Lemma main_decided (args : Args) (w : World) (ms tail : list Message) :
  ending (session w) = None ->
  messages (session w) = ms ++ ResultMessage false :: tail ->
  Forall (fun m => successful m = false) tail ->
  main args w
  = match extract None (texts ms) with
    | Some m => if truthy m then dispatch args w m
                else ([ErrFailedToGenerate], 1)
    | None => ([ErrFailedToGenerate], 1)
    end.
Proof.
  intros E M H. rewrite (main_ended _ _ E), M, (loop_decided _ H).
  reflexivity.
Qed.

Lemma fallback_entry (log earlier later : list str) (entry : str) :
  ~ occurs MARKER (join NL log) ->
  log = earlier ++ entry :: later ->
  meaningful entry -> Forall skipped later ->
  candidate None log = Some (strip entry).
Proof.
  intros NO -> M S. unfold candidate.
  assert (C : contains MARKER (join NL (earlier ++ entry :: later)) = false).
  { apply not_true_is_false. intros C. apply contains_iff in C.
    contradiction. }
  rewrite C, rev_app_distr. simpl. rewrite <- app_assoc. simpl.
  rewrite fallback_skip by (apply Forall_rev, S).
  apply fallback_take, M.
Qed.

End WholeRuns.

(** X21.  A session whose last text before the closing successful result
    holds the first marker, followed on the same line by a message that
    is not blank and opens no fence, is dispatched on exactly that
    message, trimmed. *)
Theorem one_line_message_is_dispatched
  (args : Args) (w : World) (chat tail : list Message)
  (earlier : list str) (entry a b : str) :
  ending (session w) = None ->
  messages (session w) = chat ++ ResultMessage false :: tail ->
  Forall (fun m => successful m = false) tail ->
  texts chat = earlier ++ [entry] ->
  Forall (fun e => ~ occurs MARKER e) earlier ->
  first_cut MARKER entry a b ->
  ~ In nl b -> blank b = false -> is_fence b = false ->
  main args w = dispatch args w (strip b).
Proof.
  intros E M H T N F O B G.
  rewrite (main_decided args w _ E M H), T. unfold extract.
  destruct (partition_entry [] N F) as [before P].
  rewrite (candidate_marker _ _ P). cbn [join cleanup].
  assert (S : truthy (strip b) = true)
    by (rewrite truthy_strip, B; reflexivity).
  rewrite S, clean_markdown_spec, cleanup_spec_one_line.
  - rewrite strip_idem, S. reflexivity.
  - intros I. apply O, strip_incl, I.
  - unfold is_fence in *. rewrite strip_idem. exact G.
Qed.

Lemma one_line_message_is_dispatched_witness :
  main Demo.preview_all (Demo.world Runs.one_line)
  = ([ShowMessage (lit "fix: typo"); PreviewComplete], 0).
Proof.
  refine (@one_line_message_is_dispatched Demo.preview_all
            (Demo.world Runs.one_line) Runs.one_line_chat []
            [lit "I'll read the diff."] (lit "Done. COMMIT_MESSAGE: fix: typo")
            (lit "Done. ") (lit " fix: typo")
            eq_refl eq_refl _ eq_refl _ _ _ eq_refl eq_refl).
  - constructor.
  - constructor; [|constructor]. apply contains_false. reflexivity.
  - apply partition_first. reflexivity.
  - intros I. vm_compute in I. intuition discriminate.
Defined.

(** X22.  The fallback does not try again: when the log has no marker
    and the last entry it takes is removed entirely by the cleanup, the
    run fails with the failure notice and status 1, even though an
    earlier entry could have served. *)
Theorem fallback_does_not_retry
  (args : Args) (w : World) (chat tail : list Message)
  (earlier later : list str) (entry : str) :
  ending (session w) = None ->
  messages (session w) = chat ++ ResultMessage false :: tail ->
  Forall (fun m => successful m = false) tail ->
  ~ occurs MARKER (join NL (texts chat)) ->
  texts chat = earlier ++ entry :: later ->
  meaningful entry -> Forall skipped later ->
  cleanup_spec (strip entry) = [] ->
  main args w = ([ErrFailedToGenerate], 1).
Proof.
  intros E M H NO T Me S C.
  rewrite (main_decided args w _ E M H). unfold extract.
  rewrite (@fallback_entry _ earlier later entry NO T Me S).
  cbn [cleanup].
  destruct (truthy (strip entry)) eqn:Tr.
  - rewrite clean_markdown_spec, C. reflexivity.
  - rewrite Tr. reflexivity.
Qed.

Lemma fallback_does_not_retry_witness :
  main Demo.commit_and_copy (Demo.world Runs.fenced_answer)
  = ([ErrFailedToGenerate], 1).
Proof.
  refine (@fallback_does_not_retry Demo.commit_and_copy
            (Demo.world Runs.fenced_answer) Runs.fenced_answer_chat []
            [lit "fix: a real message"] [lit "Let me know."]
            (lit "```" ++ NL ++ lit "feat: x" ++ NL ++ lit "```")
            eq_refl eq_refl _ _ eq_refl _ _ eq_refl).
  - constructor.
  - apply contains_false. reflexivity.
  - split; [discriminate|].
    intros F. apply filler_test in F. discriminate F.
  - constructor; [|constructor]. right. apply filler_test. reflexivity.
Defined.

(** ** Closed fences and letter case *)

Section FenceCase.

Lemma fenced_none (ls : list str) :
  Forall (fun l => is_fence l = false) ls -> fenced ls = false.
Proof.
  induction 1 as [|l ls F _ IH]; [reflexivity|].
  rewrite fenced_cons, F, IH. reflexivity.
Qed.

Lemma isspace_lower (c : ascii) : isspace (lower_char c) = isspace c.
Proof. destruct c as [[] [] [] [] [] [] [] []]; reflexivity. Qed.

Lemma lower_char_idem (c : ascii) : lower_char (lower_char c) = lower_char c.
Proof. destruct c as [[] [] [] [] [] [] [] []]; reflexivity. Qed.

Lemma lower_idem (s : str) : lower (lower s) = lower s.
Proof.
  unfold lower. rewrite map_map. apply map_ext. apply lower_char_idem.
Qed.

Lemma lstrip_lower (s : str) : lstrip (lower s) = lower (lstrip s).
Proof.
  induction s as [|c s IH]; auto. simpl. rewrite isspace_lower.
  destruct (isspace c); auto.
Qed.

Lemma lower_rev (s : str) : rev (lower s) = lower (rev s).
Proof. unfold lower. symmetry. apply map_rev. Qed.

Lemma strip_lower (s : str) : strip (lower s) = lower (strip s).
Proof.
  unfold strip, rstrip.
  rewrite lstrip_lower, lower_rev, lstrip_lower, lower_rev. reflexivity.
Qed.

Lemma takes_lower (e : str) : takes (lower e) = takes e.
Proof.
  unfold takes. rewrite strip_lower, lower_idem.
  destruct (strip e); reflexivity.
Qed.

Lemma takes_iff (e : str) : takes e = true <-> meaningful e.
Proof.
  unfold takes, meaningful. rewrite andb_true_iff, negb_true_iff.
  rewrite truthy_iff, <- filler_test, not_true_iff_false. tauto.
Qed.

End FenceCase.

(** X23.  A fenced block that is closed is cut out and nothing else: the
    cleanup of the whole is the cleanup of the lines before the opening
    marker followed by the lines after the closing one. *)
Theorem closed_fence_is_cut_out
  (c opening closing : str) (before body rest : list str) :
  split nl c = before ++ opening :: body ++ closing :: rest ->
  fenced before = false ->
  is_fence opening = true -> is_fence closing = true ->
  Forall (fun l => is_fence l = false) body ->
  clean_markdown c
  = match before ++ rest with
    | [] => []
    | _ :: _ => clean_markdown (join NL (before ++ rest))
    end.
Proof.
  intros S E Fo Fc B. rewrite !clean_markdown_spec. unfold cleanup_spec.
  assert (K : survivors false (split nl c) = survivors false (before ++ rest)).
  { rewrite S, !survivors_app, E. cbn [xorb survivors]. rewrite Fo.
    cbn [negb]. rewrite survivors_app, (survivors_inside B).
    rewrite (fenced_none B). cbn [xorb survivors app]. rewrite Fc.
    reflexivity. }
  rewrite K. destruct (before ++ rest) as [|l ls] eqn:L; [reflexivity|].
  rewrite split_join; [reflexivity|discriminate|].
  pose proof (split_lines_free nl c) as O. rewrite S in O.
  apply Forall_app in O as [O1 O2]. inversion O2 as [|? ? _ O3]; subst.
  apply Forall_app in O3 as [_ O4]. inversion O4; subst.
  rewrite <- L. apply Forall_app. auto.
Qed.

Lemma closed_fence_is_cut_out_witness :
  clean_markdown (lit "fix: a" ++ NL ++ lit "```" ++ NL ++ lit "x = 1"
                    ++ NL ++ lit "```" ++ NL ++ lit "- b")
  = clean_markdown (join NL ([lit "fix: a"] ++ [lit "- b"])).
Proof.
  apply (@closed_fence_is_cut_out _ (lit "```") (lit "```")
           [lit "fix: a"] [lit "x = 1"] [lit "- b"]);
    try reflexivity.
  repeat constructor.
Defined.

(** X24.  Letter case plays no part in the fallback: two entries that
    differ only by the case of their letters are both taken or both
    passed over. *)
Theorem fallback_ignores_case (e1 e2 : str) :
  lower e1 = lower e2 ->
  takes e1 = takes e2 /\ (meaningful e1 <-> meaningful e2).
Proof.
  intros L.
  assert (T : takes e1 = takes e2)
    by (rewrite <- (takes_lower e1), <- (takes_lower e2), L; reflexivity).
  split; [exact T|]. rewrite <- !takes_iff, T. tauto.
Qed.

Lemma fallback_ignores_case_witness :
  takes (lit "LET ME check") = takes (lit "let me CHECK")
  /\ (meaningful (lit "LET ME check") <-> meaningful (lit "let me CHECK")).
Proof.
  apply (@fallback_ignores_case (lit "LET ME check") (lit "let me CHECK")).
  reflexivity.
Defined.
